(** * feedgen.ext.podcast_google: the Google Play podcast extension

    A shallow embedding of [PodcstGoogleExtension]
    (src/feedgen/ext/podcast_google.py): the ten private fields, their
    get/set accessors and [extend_rss], which projects the fields into
    namespaced elements under the channel of an RSS tree. *)

From Stdlib Require Import ZArith DecimalString.
From stdpp Require Import gmap strings list fin_maps.

Local Open Scope string_scope.
Local Open Scope list_scope.
Local Open Scope Z_scope.

#[local] Set Warnings "-clear-no-such-hyp".

(** ** Python values

    Parameters on which the code branches by type or compares against
    literals of several types ([replace], [google_explicit],
    [google_complete], dictionary values) range over [pyval]; [None] is
    the [option] around it. *)

Inductive pyval :=
  | PStr (s : string)
  | PBool (b : bool)
  | PInt (z : Z).

#[global] Instance pyval_eq_dec : EqDecision pyval.
Proof. solve_decision. Defined.

(** [bool(v)] *)
Definition truthy (v : pyval) : bool :=
  match v with
  | PStr s => negb (String.eqb s "")
  | PBool b => b
  | PInt z => negb (z =? 0)
  end.

(** [bool(o)] for a value that may be [None]. *)
Definition truthy_opt (o : option pyval) : bool :=
  match o with
  | Some v => truthy v
  | None => false
  end.

(** [bool] is a subclass of [int]: [True == 1] and [False == 0]. *)
Definition int_of_bool (b : bool) : Z := if b then 1 else 0.

(** [a == b] *)
Definition py_eq (a b : pyval) : bool :=
  match a, b with
  | PStr s, PStr t => String.eqb s t
  | PBool x, PBool y => Bool.eqb x y
  | PInt x, PInt y => x =? y
  | PBool x, PInt y => int_of_bool x =? y
  | PInt x, PBool y => x =? int_of_bool y
  | _, _ => false
  end.

(** [v in (t1, t2, ...)]: some member equals [v]. *)
Definition py_in (v : pyval) (t : list pyval) : bool :=
  existsb (py_eq v) t.

(** [v is True], [v is False]: identity with the singletons. *)
Definition is_True (v : pyval) : bool :=
  match v with PBool true => true | _ => false end.
Definition is_False (v : pyval) : bool :=
  match v with PBool false => true | _ => false end.

(** ['%s' % v] *)
Definition py_str (v : pyval) : string :=
  match v with
  | PStr s => s
  | PBool true => "True"
  | PBool false => "False"
  | PInt z => NilZero.string_of_int (Z.to_int z)
  end.

(** [s.endswith(suffix)] *)
Definition endswith (s suffix : string) : bool :=
  bool_decide (String.list_ascii_of_string suffix
                 `suffix_of` String.list_ascii_of_string s).

(** A dictionary with string keys. *)
Abbreviation dict := (gmap string pyval).

(** Truthiness of a dictionary: non-empty. *)
Definition dict_truthy (d : dict) : bool := bool_decide (d ≠ ∅).

(** ** The extension's fields *)

(** [{'name': name, 'email': email}] *)
Record owner := Owner { name : string; email : string }.

Record ext := Ext {
  __google_author : option string;
  __google_block : option bool;
  __google_category : option (list dict);
  __google_image : option string;
  __google_explicit : option pyval;
  __google_complete : option pyval;
  __google_new_feed_url : option string;
  __google_owner : option owner;
  __google_subtitle : option string;
  __google_summary : option string
}.

(** [__init__] *)
Definition init : ext :=
  Ext None None None None None None None None None None.

Definition set_author v (s : ext) :=
  Ext v (__google_block s) (__google_category s) (__google_image s)
      (__google_explicit s) (__google_complete s) (__google_new_feed_url s)
      (__google_owner s) (__google_subtitle s) (__google_summary s).
Definition set_block v (s : ext) :=
  Ext (__google_author s) v (__google_category s) (__google_image s)
      (__google_explicit s) (__google_complete s) (__google_new_feed_url s)
      (__google_owner s) (__google_subtitle s) (__google_summary s).
Definition set_category v (s : ext) :=
  Ext (__google_author s) (__google_block s) v (__google_image s)
      (__google_explicit s) (__google_complete s) (__google_new_feed_url s)
      (__google_owner s) (__google_subtitle s) (__google_summary s).
Definition set_image v (s : ext) :=
  Ext (__google_author s) (__google_block s) (__google_category s) v
      (__google_explicit s) (__google_complete s) (__google_new_feed_url s)
      (__google_owner s) (__google_subtitle s) (__google_summary s).
Definition set_explicit v (s : ext) :=
  Ext (__google_author s) (__google_block s) (__google_category s)
      (__google_image s) v (__google_complete s) (__google_new_feed_url s)
      (__google_owner s) (__google_subtitle s) (__google_summary s).
Definition set_complete v (s : ext) :=
  Ext (__google_author s) (__google_block s) (__google_category s)
      (__google_image s) (__google_explicit s) v (__google_new_feed_url s)
      (__google_owner s) (__google_subtitle s) (__google_summary s).
Definition set_new_feed_url v (s : ext) :=
  Ext (__google_author s) (__google_block s) (__google_category s)
      (__google_image s) (__google_explicit s) (__google_complete s) v
      (__google_owner s) (__google_subtitle s) (__google_summary s).
Definition set_owner v (s : ext) :=
  Ext (__google_author s) (__google_block s) (__google_category s)
      (__google_image s) (__google_explicit s) (__google_complete s)
      (__google_new_feed_url s) v (__google_subtitle s) (__google_summary s).
Definition set_subtitle v (s : ext) :=
  Ext (__google_author s) (__google_block s) (__google_category s)
      (__google_image s) (__google_explicit s) (__google_complete s)
      (__google_new_feed_url s) (__google_owner s) v (__google_summary s).
Definition set_summary v (s : ext) :=
  Ext (__google_author s) (__google_block s) (__google_category s)
      (__google_image s) (__google_explicit s) (__google_complete s)
      (__google_new_feed_url s) (__google_owner s) (__google_subtitle s) v.

(** ** Methods: state and exceptions

    A method runs on the instance [self] and leaves a new [self] together
    with either a returned value or a raised exception. *)

Inductive exn :=
  | ValueError (msg : string)
  | IndexError (msg : string)
  | TypeError (msg : string)
  | SyntaxError (msg : string).

Inductive outcome (A : Type) :=
  | Return (a : A)
  | Raise (e : exn).
Arguments Return {A} a.
Arguments Raise {A} e.

Definition method (A : Type) : Type := ext → ext * outcome A.

#[global] Instance method_ret : MRet method :=
  λ A a self, (self, Return a).
#[global] Instance method_bind : MBind method :=
  λ A B k m self,
    match m self with
    | (self', Return a) => k a self'
    | (self', Raise e) => (self', Raise e)
    end.

Definition raise {A} (e : exn) : method A := λ self, (self, Raise e).
Definition read {A} (field : ext → A) : method A :=
  λ self, (self, Return (field self)).
Definition assign (update : ext → ext) : method unit :=
  λ self, (update self, Return tt).
Definition skip : method unit := mret tt.

(** The instance after a call, and what the call gave back. *)
Definition state_after {A} (r : ext * outcome A) : ext := r.1.
Definition result_of {A} (r : ext * outcome A) : outcome A := r.2.

(** ** Accessors *)

Definition google_author (google_author : option string)
  : method (option string) :=
  match google_author with
  | Some v => assign (set_author (Some v))
  | None => skip
  end;;
  read __google_author.

Definition google_block (google_block : option bool)
  : method (option bool) :=
  match google_block with
  | Some v => assign (set_block (Some v))
  | None => skip
  end;;
  read __google_block.

Definition google_image (google_image : option string)
  : method (option string) :=
  match google_image with
  | Some v =>
      if endswith v ".jpg" || endswith v ".png"
      then assign (set_image (Some v))
      else (* the ValueError is built and dropped, never raised *)
           let _ := ValueError "Image file must be png or jpg" in skip
  | None => skip
  end;;
  read __google_image.

Definition google_explicit (google_explicit : option pyval)
  : method (option pyval) :=
  match google_explicit with
  | Some v =>
      (if negb (py_in v [PStr ""; PStr "yes"; PStr "no"; PStr "clean"])
       then raise (ValueError "Invalid value for explicit tag")
       else skip);;
      assign (set_explicit (Some v))
  | None => skip
  end;;
  read __google_explicit.

Definition google_complete (google_complete : option pyval)
  : method (option pyval) :=
  match google_complete with
  | Some v =>
      (if negb (py_in v [PStr "yes"; PStr "no"; PStr "";
                         PBool true; PBool false])
       then raise (ValueError "Invalid value for complete tag")
       else skip);;
      let v := if is_True v then PStr "yes" else v in
      let v := if is_False v then PStr "no" else v in
      assign (set_complete (Some v))
  | None => skip
  end;;
  read __google_complete.

Definition google_new_feed_url (google_new_feed_url : option string)
  : method (option string) :=
  match google_new_feed_url with
  | Some v => assign (set_new_feed_url (Some v))
  | None => skip
  end;;
  read __google_new_feed_url.

(** Truthiness of a string argument that may be [None]. *)
Definition nonempty (o : option string) : bool :=
  match o with
  | Some s => negb (String.eqb s "")
  | None => false
  end.

Definition google_owner (name email : option string)
  : method (option owner) :=
  match name with
  | Some n =>
      if nonempty name && nonempty email
      then (* both are strings here, and not empty *)
           assign (set_owner (Some (Owner n (default "" email))))
      else if negb (nonempty name) && negb (nonempty email)
      then assign (set_owner None)
      else raise (ValueError "Both name and email have to be set.")
  | None => skip
  end;;
  read __google_owner.

Definition google_subtitle (google_subtitle : option string)
  : method (option string) :=
  match google_subtitle with
  | Some v => assign (set_subtitle (Some v))
  | None => skip
  end;;
  read __google_subtitle.

Definition google_summary (google_summary : option string)
  : method (option string) :=
  match google_summary with
  | Some v => assign (set_summary (Some v))
  | None => skip
  end;;
  read __google_summary.

(** ** Categories *)

(** What [google_category] holds once the deprecated string form and the
    keyword form are folded in: one dictionary or a list of them. *)
Inductive category_data :=
  | One (d : dict)
  | Many (l : list dict).

(** The first positional argument: a category name (deprecated form) or
    category data; [None] is the [option] around it. *)
Inductive category_arg :=
  | Name (s : string)
  | Data (v : category_data).

(** Modelled from the spec: [feedgen.util.ensure_format], which is not part
    of the sources at hand.  Section 4.1: every accepted mapping is filtered
    to the allowed field set, a required field has to be there (an entry
    without it, or with an empty one, is dropped), the others are optional;
    a single mapping stands for the list holding just it. *)
Definition ensure_format (val : category_data) (allowed required : gset string)
  : list dict :=
  let entries := match val with One d => [d] | Many l => l end in
  filter (λ d : dict, set_Forall (λ k, truthy_opt (d !! k)) required)
         ((λ d : dict, filter (λ kv, kv.1 ∈ allowed) d) <$> entries).

(** [o is not None] *)
Definition is_Some_bool {A} (o : option A) : bool :=
  match o with Some _ => true | None => false end.

Definition google_category (google_category : option category_arg)
    (replace : pyval) (kwargs : dict) : method (option (list dict)) :=
  (* the deprecated form: a name, and a subcategory in the replace slot *)
  let '(google_category, replace) :=
    match google_category with
    | Some (Name s) =>
        let d : dict := {[ "cat" := PStr s ]} in
        let d := if truthy replace then <["sub" := replace]> d else d in
        (Some (One d), PBool true)
    | Some (Data v) => (Some v, replace)
    | None => (None, replace)
    end in
  let google_category :=
    match google_category with
    | None => if dict_truthy kwargs then Some (One kwargs) else None
    | Some v => Some v
    end in
  match google_category with
  | Some v =>
      assign (λ self,
        if truthy replace || negb (is_Some_bool (__google_category self))
        then set_category (Some []) self
        else self);;
      assign (λ self,
        set_category
          (Some (default [] (__google_category self)
                 ++ ensure_format v {["cat"; "sub"]} {["cat"]})%list) self)
  | None => skip
  end;;
  read __google_category.

(** The list stored, and returned, when category data reach the second
    half of [google_category]: the old entries unless replaced, then the
    new ones. *)
Definition appended (v : category_data) (replace : pyval) (self : ext)
  : list dict :=
  ((if truthy replace then [] else default [] (__google_category self))
   ++ ensure_format v {["cat"; "sub"]} {["cat"]})%list.

(** ** The RSS tree *)

#[local] Unset Elimination Schemes.
Inductive elem :=
  Elem { tag : string; attrib : dict; text : option pyval;
         children : list elem }.
#[local] Set Elimination Schemes.

Definition GOOGLE_NS : string :=
  "http://www.google.com/schemas/play-podcasts/1.0".

(** ['{%s}local' % GOOGLE_NS] *)
Definition qname (local : string) : string :=
  "{" +:+ GOOGLE_NS +:+ "}" +:+ local.

(** *** What the XML library takes

    The elements are lxml's.  A text or an attribute value has to be a
    string ([TypeError] otherwise) that is XML compatible ([ValueError]
    otherwise): no control character but tab, line feed and carriage
    return, and neither U+FFFE, U+FFFF nor a surrogate.  A string is its
    UTF-8 bytes. *)

Definition byte (c : Ascii.ascii) : Z := Z.of_N (Ascii.N_of_ascii c).

Definition xml_byte (c : Ascii.ascii) : bool :=
  (byte c =? 9) || (byte c =? 10) || (byte c =? 13) || (32 <=? byte c).

(** The three bytes at the head of [s] encode U+FFFE, U+FFFF or a
    surrogate. *)
Definition forbidden_head (s : string) : bool :=
  match s with
  | String b0 (String b1 (String b2 _)) =>
      let n := byte b0 * 65536 + byte b1 * 256 + byte b2 in
      (128 <=? byte b0)
      && ((n =? 15712190) || (n =? 15712191)
          || ((15573120 <=? n) && (n <=? 15581119)))
  | _ => false
  end.

Fixpoint xml_compatible (s : string) : bool :=
  match s with
  | EmptyString => true
  | String c rest =>
      xml_byte c && negb (forbidden_head s) && xml_compatible rest
  end.

(** The check every assigned text and attribute value goes through. *)
Definition xml_value (v : pyval) : outcome pyval :=
  match v with
  | PStr s =>
      if xml_compatible s then Return v
      else Raise (ValueError
             "All strings must be XML compatible: Unicode or ASCII, no NULL bytes or control characters")
  | PBool _ =>
      Raise (TypeError "Argument must be bytes or unicode, got 'bool'")
  | PInt _ =>
      Raise (TypeError "Argument must be bytes or unicode, got 'int'")
  end.

(** *** Building the tree in place

    A step works on an element, which it may change, and returns or
    raises; when it raises, the element stays as far as it got. *)

Definition builder : Type := elem → elem * outcome unit.

Definition pass : builder := λ e, (e, Return tt).

(** One step, and when it returned, the next. *)
Definition andthen (first next : builder) : builder :=
  λ e,
    match first e with
    | (e', Return _) => next e'
    | (e', Raise x) => (e', Raise x)
    end.

Notation "a >> b" := (andthen a b) (at level 65, right associativity).

(** Modelled from the spec: [feedgen.util.xml_elem], which is not part of
    the sources at hand.  Section 6: [createChild(qualifiedName, parent)]
    returns a new, empty element appended as the last child of [parent].
    The new element is handed back as its position under the parent. *)
Definition xml_elem (name : string) (parent : elem) : elem * nat :=
  (Elem (tag parent) (attrib parent) (text parent)
        (children parent ++ [Elem name ∅ None []]),
   length (children parent)).

(** A step on the child at position [i], seen from the parent. *)
Definition at_child (i : nat) (step : builder) : builder :=
  λ parent,
    match children parent !! i with
    | Some child =>
        let '(child', r) := step child in
        (Elem (tag parent) (attrib parent) (text parent)
              (<[i := child']> (children parent)), r)
    | None => (parent, Return tt)
    end.

(** [e.text = v] and [e.attrib[k] = v] *)
Definition set_text (v : pyval) : builder :=
  λ e,
    match xml_value v with
    | Return v => (Elem (tag e) (attrib e) (Some v) (children e), Return tt)
    | Raise x => (e, Raise x)
    end.
Definition set_attrib (k : string) (v : pyval) : builder :=
  λ e,
    match xml_value v with
    | Return v =>
        (Elem (tag e) (<[k := v]> (attrib e)) (text e) (children e),
         Return tt)
    | Raise x => (e, Raise x)
    end.

(** The double quote. *)
Definition dquote : Ascii.ascii := Ascii.ascii_of_nat 34.
Definition has_dquote (s : string) : bool :=
  existsb (Ascii.eqb dquote) (String.list_ascii_of_string s).

(** [channel.find('{%s}category[@text="%s"]' % (GOOGLE_NS, cat))].  For a
    name free of double quotes: the first direct child with that tag whose
    [text] attribute is the string, as its position.  A double quote in the
    name ends the string of the predicate early, and the rest of the name
    is read as path syntax: as a rule that is no predicate and ElementPath
    raises [SyntaxError], which is what this definition does for every such
    name.  A name written to continue the path is searched for as that
    path instead; this the definition does not follow, and every statement
    about the loop below is about names free of double quotes. *)
Definition find_category (cat : string) (channel : elem)
  : outcome (option nat) :=
  if has_dquote cat then Raise (SyntaxError "invalid predicate")
  else
    Return (fst <$> list_find
                      (λ e, tag e = qname "category"
                            ∧ attrib e !! "text" = Some (PStr cat))
                      (children channel)).

(** One round of the loop over the categories (lines 54 to 65). *)
Definition render_category (c : dict) : builder :=
  λ channel,
    match c !! "cat" with
    | Some cat =>
        if negb (truthy cat) then (channel, Return tt) else
        match find_category (py_str cat) channel with
        | Raise x => (channel, Raise x)
        | Return found =>
            let '(channel, category, created) :=
              match found with
              | Some category => (channel, category, Return tt)
              | None =>
                  let '(channel, category) :=
                    xml_elem (qname "category") channel in
                  let '(channel, r) :=
                    at_child category (set_attrib "text" cat) channel in
                  (channel, category, r)
              end in
            match created with
            | Raise x => (channel, Raise x)
            | Return _ =>
                if truthy_opt (c !! "sub") then
                  at_child category
                    (λ category,
                       let '(category, subcategory) :=
                         xml_elem (qname "category") category in
                       at_child subcategory
                         (set_attrib "text" (default (PStr "") (c !! "sub")))
                         category)
                    channel
                else (channel, Return tt)
            end
        end
    | None => (channel, Return tt)
    end.

(** The whole loop: it stops at the first entry that raises. *)
Fixpoint render_categories (cats : list dict) : builder :=
  match cats with
  | [] => pass
  | c :: cats => render_category c >> render_categories cats
  end.

(** A child with text content: [xml_elem] then [.text = v]. *)
Definition text_elem (name : string) (v : pyval) : builder :=
  λ parent,
    let '(parent, child) := xml_elem name parent in
    at_child child (set_text v) parent.

(** [extend_rss]: the tree as the call leaves it, and what the call
    returned, the root itself, or raised. *)
Definition extend_rss (self : ext) (rss_feed : elem) : elem * outcome elem :=
  match children rss_feed with
  | [] => (rss_feed, Raise (IndexError "list index out of range"))
  | channel :: siblings =>
      let '(channel, r) :=
        ((if nonempty (__google_author self)
          then text_elem (qname "author")
                 (PStr (default "" (__google_author self)))
          else pass)
         >> match __google_block self with
            | Some b =>
                text_elem (qname "block") (if b then PStr "yes" else PStr "no")
            | None => pass
            end
         >> render_categories (default [] (__google_category self))
         >> (if nonempty (__google_image self)
             then λ channel,
                    let '(channel, image) :=
                      xml_elem (qname "image") channel in
                    at_child image
                      (set_attrib "href"
                         (PStr (default "" (__google_image self))))
                      channel
             else pass)
         >> match __google_explicit self with
            | Some v =>
                if py_in v [PStr "yes"; PStr "no"; PStr "clean"]
                then text_elem (qname "explicit") v
                else pass
            | None => pass
            end
         >> match __google_complete self with
            | Some v =>
                if py_in v [PStr "yes"; PStr "no"]
                then text_elem (qname "complete") v
                else pass
            | None => pass
            end
         >> (if nonempty (__google_new_feed_url self)
             then text_elem (qname "new-feed-url")
                    (PStr (default "" (__google_new_feed_url self)))
             else pass)
         >> match __google_owner self with
            | Some o =>
                λ channel,
                  let '(channel, owner) := xml_elem (qname "owner") channel in
                  at_child owner
                    (text_elem (qname "name") (PStr (name o))
                     >> text_elem (qname "email") (PStr (email o)))
                    channel
            | None => pass
            end
         >> (if nonempty (__google_subtitle self)
             then text_elem (qname "subtitle")
                    (PStr (default "" (__google_subtitle self)))
             else pass)
         >> (if nonempty (__google_summary self)
             then text_elem (qname "summary")
                    (PStr (default "" (__google_summary self)))
             else pass))
          channel in
      let rss_feed :=
        Elem (tag rss_feed) (attrib rss_feed) (text rss_feed)
             (channel :: siblings) in
      (rss_feed,
       match r with
       | Return _ => Return rss_feed
       | Raise x => Raise x
       end)
  end.
(** ** Histories of accessor calls

    The fields are private: an instance is [init] followed by accessor
    calls.  A call that raises leaves the instance as the exception found
    it. *)

Inductive call :=
  | call_author (v : option string)
  | call_block (v : option bool)
  | call_category (v : option category_arg) (replace : pyval) (kwargs : dict)
  | call_image (v : option string)
  | call_explicit (v : option pyval)
  | call_complete (v : option pyval)
  | call_new_feed_url (v : option string)
  | call_owner (name email : option string)
  | call_subtitle (v : option string)
  | call_summary (v : option string).

Definition perform (self : ext) (c : call) : ext :=
  match c with
  | call_author v => state_after (google_author v self)
  | call_block v => state_after (google_block v self)
  | call_category v replace kwargs =>
      state_after (google_category v replace kwargs self)
  | call_image v => state_after (google_image v self)
  | call_explicit v => state_after (google_explicit v self)
  | call_complete v => state_after (google_complete v self)
  | call_new_feed_url v => state_after (google_new_feed_url v self)
  | call_owner n e => state_after (google_owner n e self)
  | call_subtitle v => state_after (google_subtitle v self)
  | call_summary v => state_after (google_summary v self)
  end.

Definition run (history : list call) : ext := foldl perform init history.

(** ** Properties of the stored fields *)

(** The legal values of the explicit and complete tags. *)
Definition explicit_values : list pyval :=
  [PStr ""; PStr "yes"; PStr "no"; PStr "clean"].
Definition complete_values : list pyval :=
  [PStr "yes"; PStr "no"; PStr ""; PBool true; PBool false].

(** What [google_complete] stores for a legal value. *)
Definition normalized (v : pyval) : pyval :=
  match v with
  | PBool true => PStr "yes"
  | PBool false => PStr "no"
  | _ => v
  end.

(** Every stored category entry has a non-empty [cat]. *)
Definition categories_named (self : ext) : Prop :=
  Forall (λ d : dict, truthy_opt (d !! "cat") = true)
         (default [] (__google_category self)).

(** The owner, when there is one, has a name and an email. *)
Definition owner_whole (self : ext) : Prop :=
  match __google_owner self with
  | Some o => name o ≠ "" ∧ email o ≠ ""
  | None => True
  end.

(** ** The rendered categories, said directly *)

(** The category name and subcategory name of an entry that count for
    rendering: present, a string, and not empty. *)
Definition cat_name (d : dict) : option string :=
  match d !! "cat" with
  | Some (PStr s) => if decide (s = "") then None else Some s
  | _ => None
  end.
Definition sub_name (d : dict) : option string :=
  match d !! "sub" with
  | Some (PStr s) => if decide (s = "") then None else Some s
  | _ => None
  end.

(** The entry's [cat] and [sub] are strings where they are present. *)
Definition str_or_absent (o : option pyval) : bool :=
  match o with
  | Some (PStr _) | None => true
  | Some _ => false
  end.
Definition str_entry (d : dict) : bool :=
  str_or_absent (d !! "cat") && str_or_absent (d !! "sub").

(** The values of a list without repetition, each at the place where it
    is seen first. *)
Definition first_seen (l : list string) : list string :=
  foldl (λ seen x, if decide (x ∈ seen) then seen else seen ++ [x])%list [] l.

(** The distinct category names of the entries, in first-seen order. *)
Definition cat_names (cats : list dict) : list string :=
  first_seen (omap cat_name cats).

(** The subcategory names of the entries under the category [c], one per
    entry, in the order of the entries. *)
Definition subs_of (c : string) (cats : list dict) : list string :=
  omap (λ d, if decide (cat_name d = Some c) then sub_name d else None) cats.

(** [<category text=c>] holding one [<category text=s>] per [s]. *)
Definition category_elem (c : string) (subs : list string) : elem :=
  Elem (qname "category") {[ "text" := PStr c ]} None
       ((λ s, Elem (qname "category") {[ "text" := PStr s ]} None []) <$> subs).

Definition category_elems (cats : list dict) : list elem :=
  (λ c, category_elem c (subs_of c cats)) <$> cat_names cats.

(** The texts of the category elements among [l]. *)
Definition category_texts (l : list elem) : list (option pyval) :=
  (λ e, attrib e !! "text") <$> filter (λ e, tag e = qname "category") l.

(** ** The rendered fields, said directly *)

(** [<name>v</name>] *)
Definition leaf (local : string) (v : pyval) : elem :=
  Elem (qname local) ∅ (Some v) [].

(** The element of a string field: none for [None] and for the empty
    string. *)
Definition string_field (local : string) (o : option string) : list elem :=
  match o with
  | Some s => if decide (s = "") then [] else [leaf local (PStr s)]
  | None => []
  end.

Definition block_field (o : option bool) : list elem :=
  match o with
  | Some true => [leaf "block" (PStr "yes")]
  | Some false => [leaf "block" (PStr "no")]
  | None => []
  end.

Definition image_field (o : option string) : list elem :=
  match o with
  | Some s =>
      if decide (s = "") then []
      else [Elem (qname "image") {[ "href" := PStr s ]} None []]
  | None => []
  end.

(** The element of an enumerated field: only for the listed values. *)
Definition enum_field (local : string) (shown : list pyval)
    (o : option pyval) : list elem :=
  match o with
  | Some v => if py_in v shown then [leaf local v] else []
  | None => []
  end.

Definition owner_field (o : option owner) : list elem :=
  match o with
  | Some o =>
      [Elem (qname "owner") ∅ None
            [leaf "name" (PStr (name o)); leaf "email" (PStr (email o))]]
  | None => []
  end.

(** The children appended before the categories, and after them. *)
Definition fields_before (self : ext) : list elem :=
  (string_field "author" (__google_author self)
   ++ block_field (__google_block self))%list.
Definition fields_after (self : ext) : list elem :=
  (image_field (__google_image self)
   ++ enum_field "explicit" [PStr "yes"; PStr "no"; PStr "clean"]
        (__google_explicit self)
   ++ enum_field "complete" [PStr "yes"; PStr "no"] (__google_complete self)
   ++ string_field "new-feed-url" (__google_new_feed_url self)
   ++ owner_field (__google_owner self)
   ++ string_field "subtitle" (__google_subtitle self)
   ++ string_field "summary" (__google_summary self))%list.

(** [parent] with [l] added after its children. *)
Definition with_children (parent : elem) (l : list elem) : elem :=
  Elem (tag parent) (attrib parent) (text parent) (children parent ++ l)%list.

(** ** The namespace declaration *)

(** [extend_ns]: the prefix under which the host registers the namespace. *)
Definition extend_ns : gmap string string :=
  {[ "googleplay" := "http://www.google.com/schemas/play-podcasts/1.0" ]}.

(** The local names [extend_rss] creates elements for under the channel. *)
Definition channel_locals : list string :=
  ["author"; "block"; "category"; "image"; "explicit"; "complete";
   "new-feed-url"; "owner"; "subtitle"; "summary"].

(** ** The fields, one by one *)

Inductive field :=
  | f_author | f_block | f_category | f_image | f_explicit | f_complete
  | f_new_feed_url | f_owner | f_subtitle | f_summary.

#[global] Instance field_eq_dec : EqDecision field.
Proof. solve_decision. Defined.

(** The field an accessor assigns to. *)
Definition written_by (c : call) : field :=
  match c with
  | call_author _ => f_author
  | call_block _ => f_block
  | call_category _ _ _ => f_category
  | call_image _ => f_image
  | call_explicit _ => f_explicit
  | call_complete _ => f_complete
  | call_new_feed_url _ => f_new_feed_url
  | call_owner _ _ => f_owner
  | call_subtitle _ => f_subtitle
  | call_summary _ => f_summary
  end.

(** Two instances hold the same value in a field. *)
Definition same_field (f : field) (s s' : ext) : Prop :=
  match f with
  | f_author => __google_author s = __google_author s'
  | f_block => __google_block s = __google_block s'
  | f_category => __google_category s = __google_category s'
  | f_image => __google_image s = __google_image s'
  | f_explicit => __google_explicit s = __google_explicit s'
  | f_complete => __google_complete s = __google_complete s'
  | f_new_feed_url => __google_new_feed_url s = __google_new_feed_url s'
  | f_owner => __google_owner s = __google_owner s'
  | f_subtitle => __google_subtitle s = __google_subtitle s'
  | f_summary => __google_summary s = __google_summary s'
  end.

(** The field is not [None]. *)
Definition is_set (f : field) (s : ext) : bool :=
  match f with
  | f_author => is_Some_bool (__google_author s)
  | f_block => is_Some_bool (__google_block s)
  | f_category => is_Some_bool (__google_category s)
  | f_image => is_Some_bool (__google_image s)
  | f_explicit => is_Some_bool (__google_explicit s)
  | f_complete => is_Some_bool (__google_complete s)
  | f_new_feed_url => is_Some_bool (__google_new_feed_url s)
  | f_owner => is_Some_bool (__google_owner s)
  | f_subtitle => is_Some_bool (__google_subtitle s)
  | f_summary => is_Some_bool (__google_summary s)
  end.

(** A call returned the field as it is stored after the call. *)
Definition returns_stored {A} (stored : ext → A) (r : ext * outcome A)
  : Prop :=
  result_of r = Return (stored (state_after r)).

(** A call raised and left the instance as it found it. *)
Definition raises_unchanged {A} (self : ext) (r : ext * outcome A) : Prop :=
  ∃ e, result_of r = Raise e ∧ state_after r = self.

(** ** Elements over time *)

(** [e'] is [e] later on: the same tag, attributes and text, the children
    of [e] still in front, and nothing changed at all unless [e] is a
    category element. *)
Definition grown (e e' : elem) : Prop :=
  tag e' = tag e ∧ attrib e' = attrib e ∧ text e' = text e
  ∧ children e `prefix_of` children e'
  ∧ (tag e ≠ qname "category" → e' = e).

(** [c'] is [c] after some building: its own data as before, its children
    still in place, grown at most, and after them new ones, with tags among
    [tags]. *)
Definition extended (tags : list string) (c c' : elem) : Prop :=
  ∃ old new,
    c' = Elem (tag c) (attrib c) (text c) (old ++ new)
    ∧ Forall2 grown (children c) old
    ∧ Forall (λ e, tag e ∈ tags) new.

(** The values the validating setters let through: what explicit, complete
    and image may hold. *)
Definition validated (self : ext) : Prop :=
  (∀ v, __google_explicit self = Some v → v ∈ explicit_values)
  ∧ (∀ v, __google_complete self = Some v →
       py_in v complete_values = true
       ∧ is_True v = false ∧ is_False v = false)
  ∧ (∀ s, __google_image self = Some s →
       endswith s ".jpg" || endswith s ".png" = true).

(** ** What the XML library accepts *)

(** A text that is absent or XML compatible. *)
Definition text_ok (o : option string) : bool :=
  match o with
  | Some s => xml_compatible s
  | None => true
  end.

(** A dictionary value that is absent or an XML compatible string. *)
Definition value_ok (o : option pyval) : bool :=
  match o with
  | Some (PStr s) => xml_compatible s
  | Some _ => false
  | None => true
  end.

(** An entry the loop can render: [cat] and [sub] are XML compatible
    strings where they are present, and the name holds no double quote. *)
Definition renderable_entry (d : dict) : bool :=
  value_ok (d !! "cat") && value_ok (d !! "sub")
  && negb (has_dquote (default "" (py_str <$> d !! "cat"))).

(** An instance [extend_rss] can render: every string it would write is
    XML compatible and every category entry is renderable. *)
Definition renderable (self : ext) : bool :=
  text_ok (__google_author self)
  && forallb renderable_entry (default [] (__google_category self))
  && text_ok (__google_image self)
  && text_ok (__google_new_feed_url self)
  && match __google_owner self with
     | Some o => xml_compatible (name o) && xml_compatible (email o)
     | None => true
     end
  && text_ok (__google_subtitle self)
  && text_ok (__google_summary self).

(** No stored category name holds a double quote: the path given to
    [find] is the one the loop means. *)
Definition plain_names (self : ext) : bool :=
  forallb (λ d, negb (has_dquote (default "" (py_str <$> d !! "cat"))))
          (default [] (__google_category self)).

(** * Proofs *)

(** ** Strings and Python values *)

Lemma list_ascii_app a b :
  String.list_ascii_of_string (a +:+ b)
  = (String.list_ascii_of_string a ++ String.list_ascii_of_string b)%list.
Proof. induction a as [|c a IH]; simpl; [done | by rewrite IH]. Qed.

Lemma string_of_list_app k l :
  String.string_of_list_ascii (k ++ l)
  = String.string_of_list_ascii k +:+ String.string_of_list_ascii l.
Proof. induction k as [|c k IH]; simpl; [done | by rewrite IH]. Qed.

(** [endswith] is the suffix test on strings. *)
Lemma endswith_spec s suffix :
  endswith s suffix = true ↔ ∃ pre, s = pre +:+ suffix.
Proof.
  unfold endswith. rewrite bool_decide_eq_true. split.
  - intros [k Hk]. exists (String.string_of_list_ascii k).
    rewrite <- (String.string_of_list_ascii_of_string s), Hk.
    by rewrite string_of_list_app, String.string_of_list_ascii_of_string.
  - intros [pre ->]. exists (String.list_ascii_of_string pre).
    apply list_ascii_app.
Qed.

Lemma nonempty_Some s : nonempty (Some s) = bool_decide (s ≠ "").
Proof.
  unfold nonempty. destruct (String.eqb_spec s "") as [->|Hne]; symmetry.
  - apply bool_decide_eq_false_2. by intros [].
  - by apply bool_decide_eq_true_2.
Qed.

Lemma truthy_PStr s : truthy (PStr s) = bool_decide (s ≠ "").
Proof. apply nonempty_Some. Qed.

Lemma py_eq_PStr v s : py_eq v (PStr s) = bool_decide (v = PStr s).
Proof.
  destruct v as [t| |]; unfold py_eq; symmetry.
  - destruct (String.eqb_spec t s) as [->|Hne].
    + by apply bool_decide_eq_true_2.
    + apply bool_decide_eq_false_2. congruence.
  - by apply bool_decide_eq_false_2.
  - by apply bool_decide_eq_false_2.
Qed.

(** Membership in a tuple of strings is membership up to equality. *)
Lemma py_in_strings v (l : list string) :
  py_in v (PStr <$> l) = bool_decide (v ∈ PStr <$> l).
Proof.
  induction l as [|s l IH].
  - symmetry. apply bool_decide_eq_false_2, not_elem_of_nil.
  - rewrite fmap_cons. unfold py_in in *. cbn [existsb].
    rewrite IH, py_eq_PStr.
    destruct (decide (v = PStr s)) as [->|Hne].
    + rewrite (bool_decide_eq_true_2 (PStr s = PStr s)) by done.
      symmetry. apply bool_decide_eq_true_2, elem_of_cons. by left.
    + rewrite (bool_decide_eq_false_2 (v = PStr s)) by done. simpl.
      apply bool_decide_ext. rewrite elem_of_cons. tauto.
Qed.

Lemma py_in_explicit v :
  py_in v explicit_values = bool_decide (v ∈ explicit_values).
Proof. apply (py_in_strings v [""; "yes"; "no"; "clean"]). Qed.

(** ** C2: the image setter *)

(** C2. An argument that ends neither in [.jpg] nor in [.png] raises
    nothing, leaves the image field as it was and gives back the value
    stored before; an argument with one of the two endings is stored and
    given back. *)
Theorem google_image_checks_suffix (self : ext) (v : string) :
  (endswith v ".jpg" || endswith v ".png" = false →
     google_image (Some v) self = (self, Return (__google_image self)))
  ∧ (endswith v ".jpg" || endswith v ".png" = true →
     google_image (Some v) self = (set_image (Some v) self, Return (Some v))
     ∧ __google_image (state_after (google_image (Some v) self)) = Some v).
Proof.
  unfold google_image. split; intros ->; done.
Qed.

Lemma google_image_checks_suffix_witness :
  (endswith "cover.gif" ".jpg" || endswith "cover.gif" ".png" = false
   ∧ google_image (Some "cover.gif") (set_image (Some "old.png") init)
     = (set_image (Some "old.png") init, Return (Some "old.png")))
  ∧ (endswith "cover.jpg" ".jpg" || endswith "cover.jpg" ".png" = true
     ∧ google_image (Some "cover.jpg") init
       = (set_image (Some "cover.jpg") init, Return (Some "cover.jpg"))).
Proof.
  split; (split; [reflexivity |]).
  - apply (google_image_checks_suffix (set_image (Some "old.png") init)
             "cover.gif"). reflexivity.
  - apply (google_image_checks_suffix init "cover.jpg"). reflexivity.
Defined.

(** ** C5: the explicit tag *)

(** C5. A value among [""], ["yes"], ["no"], ["clean"] is stored and read
    back as it is; any other value raises the validation error and the
    instance, with the value stored before, stays as it was. *)
Theorem google_explicit_validates (self : ext) (v : pyval) :
  (v ∈ explicit_values →
     google_explicit (Some v) self = (set_explicit (Some v) self, Return (Some v))
     ∧ result_of (google_explicit None
                    (state_after (google_explicit (Some v) self)))
       = Return (Some v))
  ∧ (v ∉ explicit_values →
     google_explicit (Some v) self
     = (self, Raise (ValueError "Invalid value for explicit tag"))).
Proof.
  unfold google_explicit. fold explicit_values.
  split; intros Hv.
  - unfold mbind, method_bind.
    rewrite py_in_explicit, bool_decide_eq_true_2 by done. done.
  - unfold mbind, method_bind.
    rewrite py_in_explicit, bool_decide_eq_false_2 by done. done.
Qed.

Lemma google_explicit_validates_witness :
  ((PStr "clean" ∈ explicit_values)
   ∧ result_of (google_explicit None
                  (state_after (google_explicit (Some (PStr "clean")) init)))
     = Return (Some (PStr "clean")))
  ∧ ((PStr "maybe" ∉ explicit_values)
     ∧ google_explicit (Some (PStr "maybe")) (set_explicit (Some (PStr "no")) init)
       = (set_explicit (Some (PStr "no")) init,
          Raise (ValueError "Invalid value for explicit tag"))).
Proof.
  assert (H1 : PStr "clean" ∈ explicit_values)
    by (apply (bool_decide_eq_true_1 _); reflexivity).
  assert (H2 : PStr "maybe" ∉ explicit_values)
    by (apply (bool_decide_eq_false_1 _); reflexivity).
  split; (split; [done |]).
  - apply (google_explicit_validates init (PStr "clean")), H1.
  - apply (google_explicit_validates
             (set_explicit (Some (PStr "no")) init) (PStr "maybe")), H2.
Defined.

(** ** C6: the complete tag *)

(** The membership test of [google_complete]: beside the five listed
    values it lets the integers equal to [True] and [False] pass. *)
Lemma py_in_complete v :
  py_in v complete_values = true
  ↔ v ∈ complete_values ∨ v = PInt 1 ∨ v = PInt 0.
Proof.
  unfold complete_values. rewrite !elem_of_cons, elem_of_nil.
  destruct v as [s|b|z]; unfold py_in; cbn [existsb]; rewrite !py_eq_PStr.
  - rewrite !orb_true_iff, !bool_decide_eq_true. cbn. naive_solver.
  - destruct b; cbn; naive_solver.
  - cbn. rewrite !orb_true_iff, !Z.eqb_eq. naive_solver.
Qed.

(** On the listed values the setter stores and returns the normalized
    value, a boolean turned into ["yes"] or ["no"]. *)
Lemma google_complete_listed (self : ext) (v : pyval) :
  v ∈ complete_values →
  google_complete (Some v) self
  = (set_complete (Some (normalized v)) self, Return (Some (normalized v))).
Proof.
  unfold complete_values. rewrite !elem_of_cons, elem_of_nil.
  intros [->|[->|[->|[->|[->|[]]]]]]; reflexivity.
Qed.

(** A string or a boolean outside the listed values raises, and the
    instance stays as it was. *)
Lemma google_complete_unlisted (self : ext) (v : pyval) :
  v ∉ complete_values → (∀ z, v ≠ PInt z) →
  google_complete (Some v) self
  = (self, Raise (ValueError "Invalid value for complete tag")).
Proof.
  intros Hv Hz. unfold google_complete. fold complete_values.
  destruct (py_in v complete_values) eqn:Hin.
  - apply py_in_complete in Hin as [?|[->| ->]]; [done | |].
    + by destruct (Hz 1).
    + by destruct (Hz 0).
  - reflexivity.
Qed.

(** C6. The integer [1] is none of [""], ["yes"], ["no"], [True], [False],
    yet [google_complete(1)] raises nothing: Python's [in] compares with
    [==], under which [1 == True], so the check passes; [1 is True] does
    not hold, so [1] is stored and returned as it is. *)
Theorem google_complete_accepts_one :
  (PInt 1 ∉ complete_values)
  ∧ google_complete (Some (PInt 1)) init
    = (set_complete (Some (PInt 1)) init, Return (Some (PInt 1)))
  ∧ __google_complete (state_after (google_complete (Some (PInt 1)) init))
    = Some (PInt 1).
Proof.
  split; [| split; reflexivity].
  apply (bool_decide_eq_false_1 _). reflexivity.
Qed.

(** ** Invariants of the instance *)

Lemma ensure_format_named (v : category_data) (allowed : gset string) :
  Forall (λ d : dict, truthy_opt (d !! "cat") = true)
         (ensure_format v allowed {["cat"]}).
Proof.
  unfold ensure_format. apply Forall_forall. intros d Hd.
  apply list_elem_of_filter in Hd as [Hd _].
  specialize (Hd "cat"). apply Is_true_true, Hd. set_solver.
Qed.

Lemma google_category_data v replace kwargs self :
  google_category (Some (Data v)) replace kwargs self
  = (set_category (Some (appended v replace self)) self,
     Return (Some (appended v replace self))).
Proof.
  unfold google_category, appended. destruct self as [a b c d e f g h i j].
  destruct (truthy replace), c; reflexivity.
Qed.

Lemma google_category_name s replace kwargs self :
  google_category (Some (Name s)) replace kwargs self
  = google_category
      (Some (Data (One (if truthy replace
                        then <["sub" := replace]> {["cat" := PStr s]}
                        else {["cat" := PStr s]}))))
      (PBool true) kwargs self.
Proof. reflexivity. Qed.

Lemma google_category_kwargs replace kwargs self :
  google_category None replace kwargs self
  = if dict_truthy kwargs
    then google_category (Some (Data (One kwargs))) replace ∅ self
    else (self, Return (__google_category self)).
Proof.
  unfold google_category. destruct (dict_truthy kwargs); reflexivity.
Qed.

Lemma appended_named v replace self :
  categories_named self →
  Forall (λ d : dict, truthy_opt (d !! "cat") = true) (appended v replace self).
Proof.
  unfold categories_named, appended. intros Hself.
  apply Forall_app; split; [| apply ensure_format_named].
  destruct (truthy replace); [apply Forall_nil_2 | done].
Qed.

Lemma google_category_named v replace kwargs self :
  categories_named self →
  categories_named (state_after (google_category v replace kwargs self)).
Proof.
  intros Hself. destruct v as [[s|v]|].
  - rewrite google_category_name, google_category_data.
    by apply appended_named.
  - rewrite google_category_data. by apply appended_named.
  - rewrite google_category_kwargs. destruct (dict_truthy kwargs); [| done].
    rewrite google_category_data. by apply appended_named.
Qed.

Lemma google_category_owner v replace kwargs self :
  __google_owner (state_after (google_category v replace kwargs self))
  = __google_owner self.
Proof.
  destruct v as [[s|v]|].
  - by rewrite google_category_name, google_category_data.
  - by rewrite google_category_data.
  - rewrite google_category_kwargs. destruct (dict_truthy kwargs); [| done].
    by rewrite google_category_data.
Qed.

Lemma google_owner_whole n e self :
  owner_whole self → owner_whole (state_after (google_owner n e self)).
Proof.
  unfold owner_whole, google_owner. intros Hself.
  destruct n as [n|]; [| done].
  rewrite nonempty_Some.
  destruct e as [e|]; [rewrite nonempty_Some |]; cbn [nonempty];
    repeat case_bool_decide; cbn; done.
Qed.

(** Only [google_category] writes the categories, only [google_owner] the
    owner. *)
Lemma perform_invariant (self : ext) (c : call) :
  categories_named self ∧ owner_whole self →
  categories_named (perform self c) ∧ owner_whole (perform self c).
Proof.
  intros [Hc Ho]. destruct c; cbn [perform];
    try (split; [apply google_category_named | apply google_owner_whole]; done).
  - destruct v; done.
  - destruct v; done.
  - split; [apply google_category_named; done |].
    unfold owner_whole. by rewrite google_category_owner.
  - destruct v as [v|]; [| done]. unfold google_image.
    destruct (endswith v ".jpg" || endswith v ".png"); done.
  - destruct v as [v|]; [| done].
    unfold google_explicit, mbind, method_bind. by destruct (negb _).
  - destruct v as [v|]; [| done].
    unfold google_complete, mbind, method_bind. by destruct (negb _).
  - destruct v; done.
  - split; [| apply google_owner_whole; done].
    revert Hc. unfold categories_named, google_owner.
    destruct name0 as [n|]; [| done].
    destruct (nonempty (Some n) && nonempty email0); [done |].
    destruct (negb (nonempty (Some n)) && negb (nonempty email0)); done.
  - destruct v; done.
  - destruct v; done.
Qed.

Lemma run_invariant (history : list call) :
  categories_named (run history) ∧ owner_whole (run history).
Proof.
  unfold run. induction history as [|c history IH] using rev_ind.
  - split; [apply Forall_nil_2 | exact I].
  - rewrite foldl_snoc. by apply perform_invariant.
Qed.

(** ** C7: the owner *)

(** C7. With a name given: a non-empty name and a non-empty email are
    stored as a pair; an empty name and an empty (or missing) email clear
    the owner; one empty and the other not raises the validation error and
    leaves the instance as it was.  Whatever the calls made, a stored owner
    has both a name and an email. *)
Theorem google_owner_all_or_nothing (self : ext) (n : string)
    (e : option string) (history : list call) :
  (∀ e', n ≠ "" → e = Some e' → e' ≠ "" →
     google_owner (Some n) e self
     = (set_owner (Some (Owner n e')) self, Return (Some (Owner n e'))))
  ∧ (n = "" → nonempty e = false →
     google_owner (Some n) e self = (set_owner None self, Return None))
  ∧ (bool_decide (n ≠ "") ≠ nonempty e →
     google_owner (Some n) e self
     = (self, Raise (ValueError "Both name and email have to be set.")))
  ∧ owner_whole (run history).
Proof.
  repeat split.
  - intros e' Hn -> He. unfold google_owner.
    rewrite !nonempty_Some, !bool_decide_eq_true_2 by done. done.
  - intros -> He. unfold google_owner. rewrite He. done.
  - unfold google_owner. rewrite nonempty_Some.
    destruct (bool_decide (n ≠ "")), (nonempty e); done.
  - apply run_invariant.
Qed.

Lemma google_owner_all_or_nothing_witness :
  google_owner (Some "Alice") (Some "a@example.com") init
  = (set_owner (Some (Owner "Alice" "a@example.com")) init,
     Return (Some (Owner "Alice" "a@example.com")))
  ∧ google_owner (Some "") (Some "")
      (set_owner (Some (Owner "Alice" "a@example.com")) init)
    = (init, Return None)
  ∧ google_owner (Some "Alice") (Some "") init
    = (init, Raise (ValueError "Both name and email have to be set."))
  ∧ google_owner (Some "") (Some "a@example.com") init
    = (init, Raise (ValueError "Both name and email have to be set.")).
Proof.
  split; [| split; [| split]].
  - apply (google_owner_all_or_nothing init "Alice" (Some "a@example.com") []);
      done.
  - apply (google_owner_all_or_nothing
             (set_owner (Some (Owner "Alice" "a@example.com")) init)
             "" (Some "") []); done.
  - apply (google_owner_all_or_nothing init "Alice" (Some "") []); done.
  - apply (google_owner_all_or_nothing init "" (Some "a@example.com") []);
      done.
Defined.

(** ** C10: the accessors as getters *)

(** C10. Each accessor called with [None] (and, for the categories, no
    keyword fields) returns the stored value and leaves the instance as it
    was; no field is cleared. *)
Theorem getters_leave_instance (self : ext) (replace : pyval)
    (email : option string) :
  google_author None self = (self, Return (__google_author self))
  ∧ google_block None self = (self, Return (__google_block self))
  ∧ google_category None replace ∅ self
    = (self, Return (__google_category self))
  ∧ google_image None self = (self, Return (__google_image self))
  ∧ google_explicit None self = (self, Return (__google_explicit self))
  ∧ google_complete None self = (self, Return (__google_complete self))
  ∧ google_new_feed_url None self
    = (self, Return (__google_new_feed_url self))
  ∧ google_owner None email self = (self, Return (__google_owner self))
  ∧ google_subtitle None self = (self, Return (__google_subtitle self))
  ∧ google_summary None self = (self, Return (__google_summary self)).
Proof. repeat split. Qed.

(** ** C3: stored categories are named *)

(** C3. Whatever the calls made, every stored category entry has a
    non-empty [cat]; an entry whose [cat] is missing or empty is dropped
    when [google_category] writes, so the call stores and returns the list
    without it, and raises nothing. *)
Theorem stored_categories_named (history : list call) (self : ext)
    (d : dict) (replace : pyval) (kwargs : dict) :
  categories_named (run history)
  ∧ (truthy_opt (d !! "cat") = false →
     google_category (Some (Data (One d))) replace kwargs self
     = (set_category
          (Some (if truthy replace then []
                 else default [] (__google_category self))) self,
        Return (Some (if truthy replace then []
                      else default [] (__google_category self))))).
Proof.
  split; [apply run_invariant |]. intros Hd.
  rewrite google_category_data. unfold appended.
  assert (ensure_format (One d) {["cat"; "sub"]} {["cat"]} = []) as ->.
  { unfold ensure_format. rewrite list_fmap_singleton.
    rewrite filter_cons_False, filter_nil; [done |].
    intros Hall. specialize (Hall "cat" ltac:(set_solver)).
    cbv beta in Hall.
    destruct (_ !! "cat") as [v|] eqn:Hv in Hall; [| done].
    apply map_lookup_filter_Some in Hv as [Hv _].
    rewrite Hv in Hd. cbn in Hd, Hall. by rewrite Hd in Hall. }
  by rewrite app_nil_r.
Qed.

Lemma stored_categories_named_witness :
  truthy_opt (({[ "cat" := PStr "" ; "sub" := PStr "Design" ]} : dict) !! "cat")
  = false
  ∧ google_category
      (Some (Data (One {[ "cat" := PStr "" ; "sub" := PStr "Design" ]})))
      (PBool false) ∅
      (set_category (Some [ {[ "cat" := PStr "Arts" ]} ]) init)
    = (set_category (Some [ {[ "cat" := PStr "Arts" ]} ]) init,
       Return (Some [ {[ "cat" := PStr "Arts" ]} ])).
Proof.
  split; [reflexivity |].
  apply (stored_categories_named []
           (set_category (Some [ {[ "cat" := PStr "Arts" ]} ]) init)
           {[ "cat" := PStr "" ; "sub" := PStr "Design" ]} (PBool false) ∅).
  reflexivity.
Defined.

(** ** C4: the deprecated two-string form *)

(** C4 as stated fails for an empty subcategory string: the deprecated
    form stores an entry without [sub], the mapping form one whose [sub] is
    the empty string. *)
Lemma legacy_differs_on_empty_sub :
  ¬ (∀ (self : ext) (cat sub : string),
       google_category (Some (Name cat)) (PStr sub) ∅ self
       = google_category
           (Some (Data (One {[ "cat" := PStr cat; "sub" := PStr sub ]})))
           (PBool true) ∅ self).
Proof.
  intros H. specialize (H init "Arts" "").
  apply (f_equal (λ r, default [] (__google_category (state_after r))
                       !! 0%nat ≫= (.!! "sub"))) in H.
  vm_compute in H. discriminate H.
Qed.

(** C4, amended. With a non-empty subcategory string in the replace slot
    the deprecated form is the call with the mapping of [cat] and [sub] and
    [replace=True]; with the name alone, or with the empty string in the
    slot, it is the call with the mapping of [cat] and [replace=True]; and
    whatever the slot holds, the list stored afterwards does not depend on
    the categories stored before. *)
Theorem legacy_form_replaces (self : ext) (cat sub : string)
    (replace : pyval) (kwargs : dict) (before : option (list dict)) :
  (sub ≠ "" →
     google_category (Some (Name cat)) (PStr sub) kwargs self
     = google_category
         (Some (Data (One {[ "cat" := PStr cat; "sub" := PStr sub ]})))
         (PBool true) kwargs self)
  ∧ google_category (Some (Name cat)) (PBool false) kwargs self
    = google_category (Some (Data (One {[ "cat" := PStr cat ]})))
        (PBool true) kwargs self
  ∧ google_category (Some (Name cat)) (PStr "") kwargs self
    = google_category (Some (Data (One {[ "cat" := PStr cat ]})))
        (PBool true) kwargs self
  ∧ __google_category
      (state_after (google_category (Some (Name cat)) replace kwargs self))
    = __google_category
        (state_after (google_category (Some (Name cat)) replace kwargs
                        (set_category before self))).
Proof.
  split_and!.
  - intros Hsub. rewrite google_category_name, truthy_PStr.
    rewrite bool_decide_eq_true_2 by done.
    rewrite <- !insert_empty. by rewrite insert_insert_ne.
  - reflexivity.
  - reflexivity.
  - rewrite !google_category_name, !google_category_data. reflexivity.
Qed.

Lemma legacy_form_replaces_witness :
  "Design" ≠ ""
  ∧ google_category (Some (Name "Arts")) (PStr "Design") ∅
      (set_category (Some [ {[ "cat" := PStr "Music" ]} ]) init)
    = google_category
        (Some (Data (One {[ "cat" := PStr "Arts"; "sub" := PStr "Design" ]})))
        (PBool true) ∅
        (set_category (Some [ {[ "cat" := PStr "Music" ]} ]) init).
Proof.
  assert (Hsub : "Design" ≠ "") by done.
  split; [exact Hsub |].
  exact (proj1 (legacy_form_replaces
                  (set_category (Some [ {[ "cat" := PStr "Music" ]} ]) init)
                  "Arts" "Design" (PBool false) ∅ None) Hsub).
Defined.

(** ** The tree operations *)

Lemma elem_eta (e : elem) : Elem (tag e) (attrib e) (text e) (children e) = e.
Proof. by destruct e. Qed.

Lemma with_children_nil (parent : elem) : with_children parent [] = parent.
Proof. unfold with_children. by rewrite app_nil_r, elem_eta. Qed.

Lemma with_children_app (parent : elem) (l k : list elem) :
  with_children (with_children parent l) k = with_children parent (l ++ k).
Proof. unfold with_children. cbn. by rewrite app_assoc. Qed.

Lemma lookup_last {A} (l : list A) (x : A) : (l ++ [x]) !! length l = Some x.
Proof. by rewrite lookup_app_r, Nat.sub_diag by lia. Qed.

Lemma insert_last {A} (l : list A) (x y : A) :
  <[length l := y]> (l ++ [x]) = l ++ [y].
Proof.
  rewrite insert_app_r_alt by lia. by rewrite Nat.sub_diag.
Qed.

(** When the first step returns, the second goes on from there. *)
Lemma andthen_return (a b : builder) (e e' : elem) :
  a e = (e', Return tt) → (a >> b) e = b e'.
Proof. unfold andthen. by intros ->. Qed.

Lemma andthen_pass (b : builder) (e : elem) : (pass >> b) e = b e.
Proof. done. Qed.

(** A step on a child that is there. *)
Lemma at_child_lookup (i : nat) (step : builder) (parent e : elem) :
  children parent !! i = Some e →
  at_child i step parent
  = (Elem (tag parent) (attrib parent) (text parent)
          (<[i := (step e).1]> (children parent)),
     (step e).2).
Proof. unfold at_child. intros ->. by destruct (step e). Qed.

(** A step on the last child. *)
Lemma at_child_last (step : builder) (t : string) (a : dict)
    (x : option pyval) (l : list elem) (e : elem) :
  at_child (length l) step (Elem t a x (l ++ [e]))
  = (Elem t a x (l ++ [(step e).1]), (step e).2).
Proof.
  unfold at_child. cbn [children tag attrib text].
  rewrite lookup_last. destruct (step e) as [e' r].
  by rewrite insert_last.
Qed.

(** A child made by [xml_elem] and then worked on is the child added
    last, as far as the work on it got. *)
Lemma xml_elem_then (name : string) (step : builder) (parent : elem) :
  (let '(parent', child) := xml_elem name parent in
   at_child child step parent')
  = (with_children parent [(step (Elem name ∅ None [])).1],
     (step (Elem name ∅ None [])).2).
Proof. unfold xml_elem, with_children. apply at_child_last. Qed.

Lemma set_text_ok (s : string) (e : elem) :
  xml_compatible s = true →
  set_text (PStr s) e
  = (Elem (tag e) (attrib e) (Some (PStr s)) (children e), Return tt).
Proof. unfold set_text, xml_value. by intros ->. Qed.

Lemma set_attrib_ok (k s : string) (e : elem) :
  xml_compatible s = true →
  set_attrib k (PStr s) e
  = (Elem (tag e) (<[k := PStr s]> (attrib e)) (text e) (children e),
     Return tt).
Proof. unfold set_attrib, xml_value. by intros ->. Qed.

Lemma set_attrib_new (k name s : string) (l : list elem) :
  xml_compatible s = true →
  set_attrib k (PStr s) (Elem name ∅ None l)
  = (Elem name {[ k := PStr s ]} None l, Return tt).
Proof.
  intros Hs. rewrite set_attrib_ok by done.
  cbn [tag attrib text children]. by rewrite insert_empty.
Qed.

Lemma text_elem_leaf (local s : string) (parent : elem) :
  xml_compatible s = true →
  text_elem (qname local) (PStr s) parent
  = (with_children parent [leaf local (PStr s)], Return tt).
Proof.
  intros Hs. unfold text_elem. rewrite xml_elem_then.
  by rewrite set_text_ok.
Qed.

(** ** First-seen order *)

Lemma first_seen_snoc (l : list string) (x : string) :
  first_seen (l ++ [x])
  = if decide (x ∈ first_seen l) then first_seen l
    else (first_seen l ++ [x])%list.
Proof. unfold first_seen. by rewrite foldl_snoc. Qed.

Lemma first_seen_elem_of (l : list string) (x : string) :
  x ∈ first_seen l ↔ x ∈ l.
Proof.
  induction l as [|y l IH] using rev_ind; [done |].
  rewrite first_seen_snoc, elem_of_app, list_elem_of_singleton.
  case_decide; [| rewrite elem_of_app, list_elem_of_singleton];
    intuition (subst; auto).
Qed.

Lemma first_seen_NoDup (l : list string) : NoDup (first_seen l).
Proof.
  induction l as [|y l IH] using rev_ind; [apply NoDup_nil_2 |].
  rewrite first_seen_snoc. case_decide; [done |].
  apply NoDup_app. split_and!; [done | | apply NoDup_singleton].
  intros z Hz ->%list_elem_of_singleton. done.
Qed.

Lemma cat_names_snoc (cats : list dict) (c : dict) :
  cat_names (cats ++ [c])
  = match cat_name c with
    | Some s => if decide (s ∈ cat_names cats) then cat_names cats
                else (cat_names cats ++ [s])%list
    | None => cat_names cats
    end.
Proof.
  unfold cat_names. rewrite omap_app. cbn.
  destruct (cat_name c) as [s|]; cbn.
  - apply first_seen_snoc.
  - by rewrite app_nil_r.
Qed.

Lemma subs_of_snoc (s : string) (cats : list dict) (c : dict) :
  subs_of s (cats ++ [c])
  = (subs_of s cats
     ++ if decide (cat_name c = Some s) then option_list (sub_name c) else [])%list.
Proof.
  unfold subs_of. rewrite omap_app. f_equal. cbn.
  case_decide; [| done]. by destruct (sub_name c).
Qed.

Lemma cat_names_elem_of (cats : list dict) (s : string) :
  s ∈ cat_names cats ↔ ∃ d, d ∈ cats ∧ cat_name d = Some s.
Proof. unfold cat_names. by rewrite first_seen_elem_of, list_elem_of_omap. Qed.

Lemma subs_of_unseen (s : string) (cats : list dict) :
  s ∉ cat_names cats → subs_of s cats = [].
Proof.
  intros Hs. unfold subs_of. induction cats as [|d cats IH]; [done |].
  cbn. case_decide as Hd.
  - destruct Hs. apply cat_names_elem_of. exists d. split; [left | done].
  - apply IH. intros Hin. apply Hs.
    apply cat_names_elem_of in Hin as (d' & ? & ?).
    apply cat_names_elem_of. exists d'. split; [by right | done].
Qed.

(** Read from the front: the head stays, and is struck from what follows. *)
Lemma first_seen_cons (x : string) (l : list string) :
  first_seen (x :: l) = x :: filter (λ y, y ≠ x) (first_seen l).
Proof.
  induction l as [|y l IH] using rev_ind; [done |].
  rewrite app_comm_cons, !first_seen_snoc, IH.
  destruct (decide (y = x)) as [->|Hne].
  - rewrite decide_True by (by left).
    case_decide; [done |].
    rewrite filter_app, filter_cons_False, filter_nil by auto.
    by rewrite app_nil_r.
  - destruct (decide (y ∈ first_seen l)) as [Hin|Hout].
    + rewrite decide_True; [done |].
      right. by apply list_elem_of_filter.
    + rewrite decide_False.
      * rewrite filter_app, filter_cons_True by done. done.
      * rewrite elem_of_cons, list_elem_of_filter. intuition auto.
Qed.

(** ** The category loop *)

(** A subcategory under a category element: [xml_elem] into it, then the
    [text] attribute. *)
Lemma add_subcategory (c t : string) (subs : list string) :
  xml_compatible t = true →
  (let '(category, subcategory) :=
     xml_elem (qname "category") (category_elem c subs) in
   at_child subcategory (set_attrib "text" (PStr t)) category)
  = (category_elem c (subs ++ [t]), Return tt).
Proof.
  intros Ht. rewrite xml_elem_then, set_attrib_new by done.
  unfold with_children, category_elem. cbn. by rewrite fmap_app.
Qed.

(** A category element made for a new name. *)
Lemma create_category (s : string) (channel : elem) :
  xml_compatible s = true →
  (let '(channel', category) := xml_elem (qname "category") channel in
   let '(channel', r) :=
     at_child category (set_attrib "text" (PStr s)) channel' in
   (channel', category, r))
  = (with_children channel [category_elem s []], length (children channel),
     Return tt).
Proof.
  intros Hs. unfold xml_elem. rewrite at_child_last, set_attrib_new by done.
  reflexivity.
Qed.

Lemma category_elem_matches (c s : string) (subs : list string) :
  tag (category_elem c subs) = qname "category"
  ∧ attrib (category_elem c subs) !! "text" = Some (PStr s)
  ↔ c = s.
Proof.
  unfold category_elem. cbn. rewrite lookup_singleton_eq. naive_solver.
Qed.

Section loop.
Context (channel : elem).
Hypothesis fresh :
  Forall (λ e, tag e ≠ qname "category") (children channel).

(** [find] locates the element of a name already rendered ... *)
Lemma find_category_seen (cats : list dict) (s : string) (i : nat) :
  has_dquote s = false →
  cat_names cats !! i = Some s →
  find_category s (with_children channel (category_elems cats))
  = Return (Some (length (children channel) + i)%nat).
Proof.
  intros Hq Hi. unfold find_category, with_children. rewrite Hq. cbn.
  set (P := λ e, tag e = qname "category"
                 ∧ attrib e !! "text" = Some (PStr s)).
  assert (list_find P (children channel ++ category_elems cats)
          = Some ((length (children channel) + i)%nat,
                  category_elem s (subs_of s cats))) as ->; [| done].
  apply list_find_Some. split_and!.
  - rewrite lookup_app_r by lia.
    replace (_ + i - _)%nat with i by lia.
    unfold category_elems. by rewrite list_lookup_fmap, Hi.
  - by apply category_elem_matches.
  - intros j e Hj Hlt [Htag Htext].
    destruct (decide (j < length (children channel))%nat) as [Hin|Hout].
    + rewrite lookup_app_l in Hj by done.
      eapply Forall_lookup_1 in fresh; [| exact Hj]. done.
    + rewrite lookup_app_r in Hj by lia.
      unfold category_elems in Hj. rewrite list_lookup_fmap in Hj.
      destruct (cat_names cats !! (j - length (children channel))%nat)
        as [c|] eqn:Hc; [| done].
      cbn in Hj. injection Hj as <-.
      assert (c = s) as -> by (by apply (category_elem_matches c s
                                           (subs_of c cats))).
      pose proof (NoDup_lookup _ _ _ _ (first_seen_NoDup _) Hc Hi). lia.
Qed.

(** ... and nothing for a name not yet rendered. *)
Lemma find_category_unseen (cats : list dict) (s : string) :
  has_dquote s = false →
  s ∉ cat_names cats →
  find_category s (with_children channel (category_elems cats))
  = Return None.
Proof.
  intros Hq Hs. unfold find_category, with_children. rewrite Hq. cbn.
  set (P := λ e, tag e = qname "category"
                 ∧ attrib e !! "text" = Some (PStr s)).
  assert (list_find P (children channel ++ category_elems cats) = None)
    as ->; [| done].
  apply list_find_None, Forall_app. split.
  - eapply Forall_impl; [exact fresh |]. intros e He [Htag _]. done.
  - unfold category_elems. apply Forall_fmap, Forall_forall.
    intros c Hc HP. apply category_elem_matches in HP as ->. done.
Qed.

Lemma insert_fmap_NoDup {B} (F : string → B) (y : B)
    (names : list string) (s : string) (i : nat) :
  NoDup names → names !! i = Some s →
  <[i := y]> (F <$> names)
  = (λ c, if decide (c = s) then y else F c) <$> names.
Proof.
  intros Hnd Hi. apply list_eq. intros j.
  rewrite list_lookup_fmap. destruct (decide (i = j)) as [<-|Hne].
  - rewrite list_lookup_insert_eq.
    + rewrite Hi. cbn. by rewrite decide_True.
    + rewrite length_fmap. by eapply lookup_lt_Some.
  - rewrite list_lookup_insert_ne, list_lookup_fmap by done.
    destruct (names !! j) as [c|] eqn:Hj; [| done]. cbn.
    rewrite decide_False; [done |]. intros ->.
    by pose proof (NoDup_lookup _ _ _ _ Hnd Hi Hj).
Qed.

Lemma category_elems_unnamed (cats : list dict) (c : dict) :
  cat_name c = None → category_elems (cats ++ [c]) = category_elems cats.
Proof.
  intros Hc. unfold category_elems. rewrite cat_names_snoc, Hc.
  apply list_fmap_ext. intros _ c' _. rewrite subs_of_snoc, Hc.
  rewrite decide_False by done. by rewrite app_nil_r.
Qed.

(** An entry under a name already rendered adds its subcategory there. *)
Lemma category_elems_seen (cats : list dict) (c : dict) (s : string) :
  cat_name c = Some s → s ∈ cat_names cats →
  category_elems (cats ++ [c])
  = (λ c', if decide (c' = s)
           then category_elem c' (subs_of c' cats ++ option_list (sub_name c))
           else category_elem c' (subs_of c' cats)) <$> cat_names cats.
Proof.
  intros Hc Hs. unfold category_elems. rewrite cat_names_snoc, Hc.
  rewrite decide_True by done.
  apply list_fmap_ext. intros _ c' _. rewrite subs_of_snoc, Hc.
  destruct (decide (c' = s)) as [->|Hne].
  - by rewrite decide_True.
  - rewrite decide_False by congruence. by rewrite app_nil_r.
Qed.

(** An entry under a new name adds a category element at the end. *)
Lemma category_elems_unseen (cats : list dict) (c : dict) (s : string) :
  cat_name c = Some s → s ∉ cat_names cats →
  category_elems (cats ++ [c])
  = (category_elems cats
     ++ [category_elem s (option_list (sub_name c))])%list.
Proof.
  intros Hc Hs. unfold category_elems. rewrite cat_names_snoc, Hc.
  rewrite decide_False by done. rewrite fmap_app. f_equal.
  - apply list_fmap_ext. intros _ c' Hc'%list_elem_of_lookup_2.
    rewrite subs_of_snoc, Hc, decide_False; [by rewrite app_nil_r |].
    congruence.
  - cbn. rewrite subs_of_snoc, Hc, decide_True by done.
    by rewrite subs_of_unseen.
Qed.
End loop.

(** What a renderable entry gives at [get]. *)
Lemma renderable_entry_cat (c : dict) :
  renderable_entry c = true →
  (c !! "cat" = None ∧ cat_name c = None)
  ∨ (c !! "cat" = Some (PStr "") ∧ cat_name c = None)
  ∨ (∃ s, s ≠ "" ∧ c !! "cat" = Some (PStr s) ∧ cat_name c = Some s
          ∧ xml_compatible s = true ∧ has_dquote s = false).
Proof.
  unfold renderable_entry, cat_name.
  intros [[Hc _]%andb_prop Hq%negb_true_iff]%andb_prop.
  destruct (c !! "cat") as [[s| |]|]; try done; [| by left].
  destruct (decide (s = "")) as [->|Hne]; [right; by left |].
  right; right. by exists s.
Qed.

Lemma renderable_entry_sub (c : dict) :
  renderable_entry c = true →
  (truthy_opt (c !! "sub") = false ∧ sub_name c = None)
  ∨ (∃ t, truthy_opt (c !! "sub") = true
          ∧ c !! "sub" = Some (PStr t) ∧ sub_name c = Some t
          ∧ xml_compatible t = true).
Proof.
  unfold renderable_entry, sub_name.
  intros [[_ Hs]%andb_prop _]%andb_prop.
  destruct (c !! "sub") as [[t| |]|]; try done; [| by left].
  cbn [truthy_opt]. rewrite truthy_PStr.
  destruct (decide (t = "")) as [->|Hne]; [by left |].
  right. exists t. by rewrite bool_decide_eq_true_2.
Qed.

Lemma renderable_entry_str (c : dict) :
  renderable_entry c = true → str_entry c = true.
Proof.
  unfold renderable_entry, str_entry.
  intros [[Hc Hs]%andb_prop _]%andb_prop.
  destruct (c !! "cat") as [[]|], (c !! "sub") as [[]|]; done.
Qed.

Section rendering.
Context (channel : elem).
Hypothesis fresh :
  Forall (λ e, tag e ≠ qname "category") (children channel).

(** One round of the loop adds the entry to what is rendered. *)
Lemma render_category_step (cats : list dict) (c : dict) :
  renderable_entry c = true →
  render_category c (with_children channel (category_elems cats))
  = (with_children channel (category_elems (cats ++ [c])), Return tt).
Proof.
  intros Hc. unfold render_category.
  destruct (renderable_entry_cat c Hc)
    as [[-> Hn]|[[-> Hn]|(s & Hs & -> & Hn & Hx & Hq)]].
  - by rewrite category_elems_unnamed.
  - cbn. by rewrite category_elems_unnamed.
  - rewrite truthy_PStr, bool_decide_eq_true_2 by done. cbn [negb py_str].
    destruct (decide (s ∈ cat_names cats)) as [Hin|Hout].
    + apply list_elem_of_lookup_1 in Hin as Hi. destruct Hi as [i Hi].
      rewrite (find_category_seen channel fresh cats s i Hq Hi).
      rewrite (category_elems_seen cats c s Hn Hin).
      destruct (renderable_entry_sub c Hc)
        as [[-> ->]|(t & -> & -> & -> & Ht)].
      * cbn. do 2 f_equal. unfold category_elems.
        apply list_fmap_ext. intros _ c' _.
        case_decide; by rewrite ?app_nil_r.
      * erewrite at_child_lookup; last first.
        { unfold with_children. cbn [children].
          rewrite lookup_app_r by lia.
          replace (_ + i - _)%nat with i by lia.
          unfold category_elems. by rewrite list_lookup_fmap, Hi. }
        cbn [from_option id]. cbv beta.
        rewrite add_subcategory by done.
        unfold with_children. cbn [children tag attrib text fst snd].
        rewrite insert_app_r_alt by lia.
        replace (_ + i - _)%nat with i by lia.
        unfold category_elems.
        rewrite (insert_fmap_NoDup _ _ _ s i (first_seen_NoDup _) Hi).
        do 3 f_equal. apply list_fmap_ext. intros _ c' _.
        by case_decide; subst.
    + rewrite (find_category_unseen channel fresh cats s Hq Hout).
      rewrite (category_elems_unseen cats c s Hn Hout).
      rewrite create_category by done.
      destruct (renderable_entry_sub c Hc)
        as [[-> ->]|(t & -> & -> & -> & Ht)].
      * by rewrite with_children_app.
      * unfold with_children at 1 2. cbn [children tag attrib text].
        rewrite at_child_last. cbn [from_option id]. cbv beta.
        rewrite (add_subcategory s t []) by done.
        cbn [fst snd]. unfold with_children.
        cbn [children tag attrib text]. by rewrite <- app_assoc.
Qed.

(** Entries rendered after others add to what those gave. *)
Lemma render_categories_more (cats more : list dict) :
  Forall (λ d, renderable_entry d = true) more →
  render_categories more (with_children channel (category_elems cats))
  = (with_children channel (category_elems (cats ++ more)), Return tt).
Proof.
  revert cats. induction more as [|c more IH]; intros cats Hmore.
  - by rewrite app_nil_r.
  - apply Forall_cons in Hmore as [Hc Hmore]. cbn [render_categories].
    erewrite andthen_return by (by apply render_category_step).
    rewrite IH by done. by rewrite <- app_assoc.
Qed.
End rendering.

(** The loop over renderable entries, into a channel that holds no
    category element yet, adds the category elements of the entries. *)
Lemma render_categories_fresh (channel : elem) (cats : list dict) :
  Forall (λ e, tag e ≠ qname "category") (children channel) →
  Forall (λ d, renderable_entry d = true) cats →
  render_categories cats channel
  = (with_children channel (category_elems cats), Return tt).
Proof.
  intros fresh Hcats.
  pose proof (render_categories_more channel fresh [] cats Hcats) as H.
  change (category_elems []) with (@nil elem) in H.
  by rewrite with_children_nil in H.
Qed.

(** ** C1: the rendered categories *)

(** C1 as stated fails: two entries with the same [cat] and the same
    [sub] give a category element with two children of the same text. *)
Lemma repeated_sub_rendered_twice :
  ¬ (∀ (cats : list dict) (channel e : elem),
       e ∈ children (render_categories cats channel).1 →
       NoDup (category_texts (children e))).
Proof.
  intros H.
  specialize (H [ {[ "cat" := PStr "Arts"; "sub" := PStr "Design" ]};
                  {[ "cat" := PStr "Arts"; "sub" := PStr "Design" ]} ]
                (Elem "channel" ∅ None [])
                (category_elem "Arts" ["Design"; "Design"])).
  assert (Hin : category_elem "Arts" ["Design"; "Design"]
                ∈ children
                    (render_categories
                       [ {[ "cat" := PStr "Arts"; "sub" := PStr "Design" ]};
                         {[ "cat" := PStr "Arts"; "sub" := PStr "Design" ]} ]
                       (Elem "channel" ∅ None [])).1).
  { apply list_elem_of_singleton. vm_compute. reflexivity. }
  apply H in Hin. vm_compute in Hin.
  apply NoDup_cons in Hin as [Hin _]. apply Hin. by left.
Qed.

(** C1, amended. For entries whose [cat] and [sub] are XML compatible
    strings, the [cat] without a double quote, rendered into a channel
    without a category element: the loop returns, and the channel gains one
    category element per distinct non-empty [cat], in first-seen order, and
    under each of them one child per entry of that [cat] with a non-empty
    [sub], in the order of the entries; equal [sub] values are not merged.
    The names are without repetition and are those of the entries. *)
Theorem categories_grouped_by_name (channel : elem) (cats : list dict) :
  Forall (λ e, tag e ≠ qname "category") (children channel) →
  Forall (λ d, renderable_entry d = true) cats →
  render_categories cats channel
  = (with_children channel
       ((λ c, category_elem c (subs_of c cats)) <$> cat_names cats),
     Return tt)
  ∧ NoDup (cat_names cats)
  ∧ (∀ s, s ∈ cat_names cats ↔ ∃ d, d ∈ cats ∧ cat_name d = Some s)
  ∧ (∀ d, cat_names (d :: cats)
          = match cat_name d with
            | Some s => s :: filter (λ c, c ≠ s) (cat_names cats)
            | None => cat_names cats
            end).
Proof.
  intros fresh Hcats. split_and!.
  - by apply render_categories_fresh.
  - apply first_seen_NoDup.
  - apply cat_names_elem_of.
  - intros d. unfold cat_names. cbn [omap list_omap].
    destruct (cat_name d); [apply first_seen_cons | done].
Qed.

Lemma categories_grouped_by_name_witness :
  render_categories
    [ {[ "cat" := PStr "Arts"; "sub" := PStr "Design" ]};
      {[ "cat" := PStr "Arts"; "sub" := PStr "Food" ]} ]
    (Elem "channel" ∅ None [])
  = (Elem "channel" ∅ None [category_elem "Arts" ["Design"; "Food"]],
     Return tt).
Proof.
  assert (fresh : Forall (λ e, tag e ≠ qname "category")
                    (children (Elem "channel" ∅ None [])))
    by apply Forall_nil_2.
  assert (typed : Forall (λ d : dict, renderable_entry d = true)
                    [ {[ "cat" := PStr "Arts"; "sub" := PStr "Design" ]};
                      {[ "cat" := PStr "Arts"; "sub" := PStr "Food" ]} ])
    by (repeat constructor).
  rewrite (proj1 (categories_grouped_by_name _ _ fresh typed)).
  vm_compute. reflexivity.
Defined.

(** ** The fields, one step each *)

Lemma string_field_step (local : string) (o : option string) (ch : elem) :
  text_ok o = true →
  (if nonempty o then text_elem (qname local) (PStr (default "" o))
   else pass) ch
  = (with_children ch (string_field local o), Return tt).
Proof.
  destruct o as [s|]; [| by rewrite with_children_nil].
  intros Hs. rewrite nonempty_Some. unfold string_field.
  destruct (decide (s = "")) as [->|Hne].
  - by rewrite with_children_nil.
  - rewrite bool_decide_eq_true_2 by done. by apply text_elem_leaf.
Qed.

Lemma block_field_step (o : option bool) (ch : elem) :
  match o with
  | Some b => text_elem (qname "block") (if b then PStr "yes" else PStr "no")
  | None => pass
  end ch
  = (with_children ch (block_field o), Return tt).
Proof.
  destruct o as [[]|]; [| | by rewrite with_children_nil];
    by apply text_elem_leaf.
Qed.

Lemma image_field_step (o : option string) (ch : elem) :
  text_ok o = true →
  (if nonempty o
   then λ channel,
          let '(channel, image) := xml_elem (qname "image") channel in
          at_child image (set_attrib "href" (PStr (default "" o))) channel
   else pass) ch
  = (with_children ch (image_field o), Return tt).
Proof.
  destruct o as [s|]; [| by rewrite with_children_nil].
  intros Hs. rewrite nonempty_Some. unfold image_field.
  destruct (decide (s = "")) as [->|Hne].
  - by rewrite with_children_nil.
  - rewrite bool_decide_eq_true_2 by done.
    by rewrite xml_elem_then, set_attrib_new.
Qed.

(** The values shown for explicit and complete pass the library's check. *)
Lemma shown_value_ok (v : pyval) (shown : list string) :
  Forall (λ s, xml_compatible s = true) shown →
  py_in v (PStr <$> shown) = true → ∃ s, v = PStr s ∧ xml_compatible s = true.
Proof.
  intros Hshown Hv. rewrite py_in_strings in Hv.
  apply bool_decide_eq_true in Hv.
  apply list_elem_of_fmap in Hv as (s & -> & Hs).
  exists s. split; [done |]. by eapply Forall_forall in Hshown.
Qed.

Lemma enum_field_step (local : string) (shown : list string)
    (o : option pyval) (ch : elem) :
  Forall (λ s, xml_compatible s = true) shown →
  match o with
  | Some v =>
      if py_in v (PStr <$> shown) then text_elem (qname local) v else pass
  | None => pass
  end ch
  = (with_children ch (enum_field local (PStr <$> shown) o), Return tt).
Proof.
  intros Hshown. destruct o as [v|]; cbn; [| by rewrite with_children_nil].
  destruct (py_in v (PStr <$> shown)) eqn:Hv; [| by rewrite with_children_nil].
  destruct (shown_value_ok v shown Hshown Hv) as (s & -> & Hs).
  by apply text_elem_leaf.
Qed.

Lemma owner_field_step (o : option owner) (ch : elem) :
  match o with
  | Some o => xml_compatible (name o) && xml_compatible (email o)
  | None => true
  end = true →
  match o with
  | Some o =>
      λ channel,
        let '(channel, owner) := xml_elem (qname "owner") channel in
        at_child owner
          (text_elem (qname "name") (PStr (name o))
           >> text_elem (qname "email") (PStr (email o)))
          channel
  | None => pass
  end ch
  = (with_children ch (owner_field o), Return tt).
Proof.
  destruct o as [o|]; [| by rewrite with_children_nil].
  intros [Hn He]%andb_prop. rewrite xml_elem_then.
  erewrite andthen_return by (by apply text_elem_leaf).
  by rewrite text_elem_leaf.
Qed.

(** ** What building never undoes *)

Lemma grown_refl (e : elem) : grown e e.
Proof. unfold grown. by split_and!. Qed.

Lemma grown_trans (a b c : elem) : grown a b → grown b c → grown a c.
Proof.
  unfold grown. intros (Ht & Ha & Hx & Hp & He) (Ht' & Ha' & Hx' & Hp' & He').
  split_and!; try congruence.
  - by etrans.
  - intros Hne. rewrite <- (He Hne). apply He'. by rewrite (He Hne).
Qed.

Lemma Forall2_grown_refl (l : list elem) : Forall2 grown l l.
Proof. induction l; constructor; [apply grown_refl | done]. Qed.

Lemma Forall2_grown_trans (l k m : list elem) :
  Forall2 grown l k → Forall2 grown k m → Forall2 grown l m.
Proof.
  intros Hlk. revert m. induction Hlk as [|a b l k Hab Hlk IH]; intros m Hkm.
  - by inversion Hkm.
  - inversion Hkm as [|? c ? m' Hbc Hkm']; subst. constructor.
    + by eapply grown_trans.
    + by apply IH.
Qed.

Lemma Forall2_grown_insert (l : list elem) (i : nat) (e e' : elem) :
  l !! i = Some e → grown e e' → Forall2 grown l (<[i := e']> l).
Proof.
  revert i. induction l as [|a l IH]; intros [|i] Hi Hg; try done.
  - cbn in Hi. injection Hi as ->. constructor; [done |].
    apply Forall2_grown_refl.
  - constructor; [apply grown_refl |]. by apply IH.
Qed.

Lemma grown_keeps_tags (P : string → Prop) (l k : list elem) :
  Forall2 grown l k → Forall (λ e, P (tag e)) l → Forall (λ e, P (tag e)) k.
Proof.
  induction 1 as [|a b l k Hab _ IH]; [done |].
  intros [Ha Hl]%Forall_cons. constructor; [| by apply IH].
  destruct Hab as (Ht & _). by rewrite Ht.
Qed.

Lemma grown_keeps_others (l k : list elem) :
  Forall2 grown l k → Forall (λ e, tag e ≠ qname "category") l → k = l.
Proof.
  induction 1 as [|a b l k Hab _ IH]; [done |].
  intros [Ha Hl]%Forall_cons. f_equal; [| by apply IH].
  destruct Hab as (_ & _ & _ & _ & He). by apply He.
Qed.

Lemma extended_refl (tags : list string) (c : elem) : extended tags c c.
Proof.
  exists (children c), []. rewrite app_nil_r, elem_eta.
  split_and!; [done | apply Forall2_grown_refl | done].
Qed.

Lemma extended_trans (tags : list string) (a b c : elem) :
  extended tags a b → extended tags b c → extended tags a c.
Proof.
  intros (old & new & -> & Hold & Hnew) (old' & new' & -> & Hold' & Hnew').
  cbn [children tag attrib text] in *.
  apply Forall2_app_inv_l in Hold' as (o1 & o2 & Ho1 & Ho2 & ->).
  exists o1, (o2 ++ new'). rewrite app_assoc. split_and!; [done | |].
  - by eapply Forall2_grown_trans.
  - apply Forall_app. split; [| done].
    by apply (grown_keeps_tags (λ t, t ∈ tags) new).
Qed.

Lemma extended_mono (tags tags' : list string) (c c' : elem) :
  tags ⊆ tags' → extended tags c c' → extended tags' c c'.
Proof.
  intros Hsub (old & new & -> & Hold & Hnew). exists old, new.
  split_and!; [done | done |].
  eapply Forall_impl; [exact Hnew |]. intros e He. by apply Hsub.
Qed.

(** Children added at the end extend. *)
Lemma extended_with_children (tags : list string) (c : elem)
    (l : list elem) :
  Forall (λ e, tag e ∈ tags) l → extended tags c (with_children c l).
Proof.
  intros Hl. exists (children c), l.
  split_and!; [done | apply Forall2_grown_refl | done].
Qed.

(** Steps that extend, one after the other, extend; steps that return,
    one after the other, return. *)
Lemma andthen_extended (tags : list string) (a b : builder) :
  (∀ e, extended tags e (a e).1) → (∀ e, extended tags e (b e).1) →
  ∀ e, extended tags e ((a >> b) e).1.
Proof.
  intros Ha Hb e. unfold andthen. specialize (Ha e).
  destruct (a e) as [e' [[]|x]]; [| done].
  eapply extended_trans; [exact Ha | apply Hb].
Qed.

Lemma andthen_returns (a b : builder) :
  (∀ e, (a e).2 = Return tt) → (∀ e, (b e).2 = Return tt) →
  ∀ e, ((a >> b) e).2 = Return tt.
Proof.
  intros Ha Hb e. unfold andthen. specialize (Ha e).
  destruct (a e) as [e' r]. cbn in Ha. subst r. apply Hb.
Qed.

(** Assigning a text or an attribute leaves the tag and the children. *)
Lemma set_text_keeps (v : pyval) (e : elem) :
  tag (set_text v e).1 = tag e ∧ children (set_text v e).1 = children e.
Proof. unfold set_text. by destruct (xml_value v). Qed.

Lemma set_attrib_keeps (k : string) (v : pyval) (e : elem) :
  tag (set_attrib k v e).1 = tag e
  ∧ text (set_attrib k v e).1 = text e
  ∧ children (set_attrib k v e).1 = children e.
Proof. unfold set_attrib. by destruct (xml_value v). Qed.

Lemma text_elem_extended (tags : list string) (name : string)
    (v : pyval) (e : elem) :
  name ∈ tags → extended tags e (text_elem name v e).1.
Proof.
  intros Hl. unfold text_elem. rewrite xml_elem_then. cbn [fst].
  apply extended_with_children, Forall_singleton.
  by rewrite (proj1 (set_text_keeps _ _)).
Qed.

Lemma text_elem_keeps_tag (name : string) (v : pyval) (e : elem) :
  tag (text_elem name v e).1 = tag e.
Proof. unfold text_elem. by rewrite xml_elem_then. Qed.

(** What [find] returns is the position of a category element. *)
Lemma find_category_Some (cat : string) (channel : elem) (i : nat) :
  find_category cat channel = Return (Some i) →
  ∃ e, children channel !! i = Some e ∧ tag e = qname "category".
Proof.
  unfold find_category. destruct (has_dquote cat); [done |].
  intros [= Hfind].
  apply fmap_Some in Hfind as ([j e] & Hfind & ->).
  apply list_find_Some in Hfind as (He & [Htag _] & _). by exists e.
Qed.

(** A subcategory added to an element: the element gains one child with
    the category tag, and the step returns when the library takes the
    value. *)
Lemma subcategory_step (v : pyval) (e : elem) :
  ∃ x r,
    (let '(category, subcategory) := xml_elem (qname "category") e in
     at_child subcategory (set_attrib "text" v) category)
    = (with_children e [x], r)
    ∧ tag x = qname "category"
    ∧ (xml_value v = Return v → r = Return tt).
Proof.
  rewrite xml_elem_then. eexists _, _. split_and!; [done | |].
  - by rewrite (proj1 (set_attrib_keeps _ _ _)).
  - unfold set_attrib. by intros ->.
Qed.

(** A category element made for a name not found, as far as it got. *)
Lemma create_category_any (cat : pyval) (channel : elem) :
  (let '(channel', category) := xml_elem (qname "category") channel in
   let '(channel', r) := at_child category (set_attrib "text" cat) channel' in
   (channel', category, r))
  = (with_children channel
       [(set_attrib "text" cat (Elem (qname "category") ∅ None [])).1],
     length (children channel),
     (set_attrib "text" cat (Elem (qname "category") ∅ None [])).2).
Proof. unfold xml_elem. by rewrite at_child_last. Qed.

(** What a renderable entry's values are to the library. *)
Lemma renderable_entry_values (c : dict) :
  renderable_entry c = true →
  (∀ cat, c !! "cat" = Some cat →
     xml_value cat = Return cat ∧ has_dquote (py_str cat) = false)
  ∧ (∀ sub, c !! "sub" = Some sub → xml_value sub = Return sub).
Proof.
  unfold renderable_entry.
  intros [[Hc Hs]%andb_prop Hq%negb_true_iff]%andb_prop. split.
  - intros cat Hcat. rewrite Hcat in Hc, Hq. cbn in Hc, Hq.
    destruct cat as [s| |]; try done. split; [| done].
    unfold xml_value. by rewrite Hc.
  - intros sub Hsub. rewrite Hsub in Hs. cbn in Hs.
    destruct sub as [s| |]; try done. unfold xml_value. by rewrite Hs.
Qed.

(** One round of the loop, whatever the entry and whatever the channel
    holds: the children there before stay in place, grown at most; what is
    added is category elements; and a renderable entry makes it return. *)
Lemma render_category_shape (c : dict) (channel : elem) :
  ∃ old new r,
    render_category c channel
    = (Elem (tag channel) (attrib channel) (text channel) (old ++ new), r)
    ∧ Forall2 grown (children channel) old
    ∧ Forall (λ e, tag e = qname "category") new
    ∧ (renderable_entry c = true → r = Return tt).
Proof.
  assert (Hsame : ∀ r : outcome unit,
    (renderable_entry c = true → r = Return tt) →
    ∃ old new r',
      (channel, r)
      = (Elem (tag channel) (attrib channel) (text channel) (old ++ new), r')
      ∧ Forall2 grown (children channel) old
      ∧ Forall (λ e, tag e = qname "category") new
      ∧ (renderable_entry c = true → r' = Return tt)).
  { intros r Hr. exists (children channel), [], r.
    rewrite app_nil_r, elem_eta.
    split_and!; [done | apply Forall2_grown_refl | done | done]. }
  unfold render_category.
  destruct (c !! "cat") as [cat|] eqn:Hcat; [| by apply Hsame].
  destruct (truthy cat); cbn [negb]; [| by apply Hsame].
  destruct (find_category (py_str cat) channel) as [[i|]|x] eqn:Hfind.
  - apply find_category_Some in Hfind as (e & Hi & Ht).
    destruct (truthy_opt (c !! "sub")) eqn:Hsub; [| by apply Hsame].
    rewrite (at_child_lookup _ _ _ e Hi).
    destruct (subcategory_step (default (PStr "") (c !! "sub")) e)
      as (y & r & -> & Hy & Hr). cbn [fst snd].
    exists (<[i := with_children e [y]]> (children channel)), [], r.
    rewrite app_nil_r. split_and!; [done | | done |].
    + eapply Forall2_grown_insert; [done |].
      unfold grown, with_children. cbn. split_and!; try done. by eexists.
    + intros Hc. apply Hr.
      destruct (c !! "sub") as [sub|] eqn:Hs; [| done]. cbn.
      by apply (renderable_entry_values c Hc).
  - rewrite create_category_any.
    destruct (set_attrib "text" cat (Elem (qname "category") ∅ None []))
      as [e0 r0] eqn:Hset. cbn [fst snd].
    unfold with_children. cbn [children tag attrib text].
    assert (tag e0 = qname "category") as Ht0.
    { by rewrite <- (proj1 (set_attrib_keeps "text" cat
                              (Elem (qname "category") ∅ None []))), Hset. }
    assert (renderable_entry c = true → r0 = Return tt) as Hr0.
    { intros Hc. destruct (proj1 (renderable_entry_values c Hc) cat Hcat)
        as [Hv _].
      unfold set_attrib in Hset. rewrite Hv in Hset. by injection Hset. }
    destruct r0 as [[]|x].
    + destruct (truthy_opt (c !! "sub")) eqn:Hsub.
      * rewrite at_child_last.
        destruct (subcategory_step (default (PStr "") (c !! "sub")) e0)
          as (y & r & -> & Hy & Hr). cbn [fst snd].
        exists (children channel), [with_children e0 [y]], r.
        split_and!; [done | apply Forall2_grown_refl | |].
        -- by apply Forall_singleton.
        -- intros Hc. apply Hr.
           destruct (c !! "sub") as [sub|] eqn:Hs; [| done]. cbn.
           by apply (renderable_entry_values c Hc).
      * exists (children channel), [e0], (Return tt).
        split_and!; [done | apply Forall2_grown_refl | | done].
        by apply Forall_singleton.
    + exists (children channel), [e0], (Raise x).
      split_and!; [done | apply Forall2_grown_refl | | done].
      by apply Forall_singleton.
  - apply Hsame. intros Hc.
    destruct (proj1 (renderable_entry_values c Hc) cat Hcat) as [_ Hq].
    unfold find_category in Hfind. by rewrite Hq in Hfind.
Qed.

Lemma render_category_extended (c : dict) (channel : elem) :
  extended [qname "category"] channel (render_category c channel).1.
Proof.
  destruct (render_category_shape c channel)
    as (old & new & r & -> & Hold & Hnew & _).
  exists old, new. split_and!; [done | done |].
  eapply Forall_impl; [exact Hnew |]. intros e ->. set_solver.
Qed.

Lemma render_category_returns (c : dict) (channel : elem) :
  renderable_entry c = true → (render_category c channel).2 = Return tt.
Proof.
  intros Hc. destruct (render_category_shape c channel)
    as (old & new & r & -> & _ & _ & Hr). by apply Hr.
Qed.

(** The whole loop, likewise. *)
Lemma render_categories_extended (cats : list dict) (channel : elem) :
  extended [qname "category"] channel (render_categories cats channel).1.
Proof.
  revert channel. induction cats as [|c cats IH]; intros channel.
  - apply extended_refl.
  - cbn [render_categories].
    apply andthen_extended; [apply render_category_extended | apply IH].
Qed.

Lemma render_categories_returns (cats : list dict) (channel : elem) :
  Forall (λ d, renderable_entry d = true) cats →
  (render_categories cats channel).2 = Return tt.
Proof.
  intros Hcats. revert channel.
  induction Hcats as [|c cats Hc Hcats IH]; intros channel; [done |].
  cbn [render_categories].
  apply andthen_returns; [intros e; by apply render_category_returns | done].
Qed.

(** ** [extend_rss] on an instance the library accepts *)

Lemma render_categories_pair (cats : list dict) (channel : elem) :
  Forall (λ d, renderable_entry d = true) cats →
  render_categories cats channel
  = ((render_categories cats channel).1, Return tt).
Proof.
  intros Hcats. rewrite <- (render_categories_returns cats channel Hcats).
  by destruct (render_categories cats channel).
Qed.

Lemma shown_strings_ok :
  Forall (λ s, xml_compatible s = true) ["yes"; "no"; "clean"]
  ∧ Forall (λ s, xml_compatible s = true) ["yes"; "no"].
Proof. split; by repeat constructor. Qed.

(** [extend_rss] on a root with a channel, for a renderable instance: it
    returns, and the channel has gained the fields before the categories,
    then what the loop makes of the categories, then the other fields. *)
Lemma extend_rss_channel (self : ext) (t : string) (a : dict)
    (x : option pyval) (channel : elem) (siblings : list elem) :
  renderable self = true →
  extend_rss self (Elem t a x (channel :: siblings))
  = (Elem t a x
       (with_children
          (render_categories (default [] (__google_category self))
             (with_children channel (fields_before self))).1
          (fields_after self)
        :: siblings),
     Return
       (Elem t a x
          (with_children
             (render_categories (default [] (__google_category self))
                (with_children channel (fields_before self))).1
             (fields_after self)
           :: siblings))).
Proof.
  unfold renderable.
  intros [[[[[[Hau Hca]%andb_prop Him]%andb_prop Hnf]%andb_prop
             How]%andb_prop Hsu]%andb_prop Hsm]%andb_prop.
  assert (Forall (λ d, renderable_entry d = true)
            (default [] (__google_category self))) as Hcats.
  { apply Forall_forall. intros d Hd. rewrite forallb_forall in Hca.
    apply Hca. by apply list_elem_of_In. }
  unfold extend_rss. cbn [children tag attrib text].
  rewrite (andthen_return _ _ _ _ (string_field_step "author" _ channel Hau)).
  rewrite (andthen_return _ _ _ _ (block_field_step _ _)).
  rewrite with_children_app. fold (fields_before self).
  rewrite (andthen_return _ _ _ _ (render_categories_pair _ _ Hcats)).
  rewrite (andthen_return _ _ _ _ (image_field_step _ _ Him)).
  rewrite (andthen_return _ _ _ _
             (enum_field_step "explicit" ["yes"; "no"; "clean"] _ _
                (proj1 shown_strings_ok))).
  rewrite (andthen_return _ _ _ _
             (enum_field_step "complete" ["yes"; "no"] _ _
                (proj2 shown_strings_ok))).
  rewrite (andthen_return _ _ _ _
             (string_field_step "new-feed-url" _ _ Hnf)).
  rewrite (andthen_return _ _ _ _ (owner_field_step _ _ How)).
  rewrite (andthen_return _ _ _ _ (string_field_step "subtitle" _ _ Hsu)).
  rewrite (string_field_step "summary" _ _ Hsm).
  rewrite !with_children_app. reflexivity.
Qed.

Lemma fields_before_others (self : ext) :
  Forall (λ e, tag e ≠ qname "category") (fields_before self).
Proof.
  unfold fields_before, string_field, block_field.
  apply Forall_app. split.
  - destruct (__google_author self) as [s|]; [| done].
    case_decide; [done |]. by apply Forall_singleton.
  - destruct (__google_block self) as [[]|]; [| | done];
      by apply Forall_singleton.
Qed.

Lemma fields_before_fresh (self : ext) (channel : elem) :
  Forall (λ e, tag e ≠ qname "category") (children channel) →
  Forall (λ e, tag e ≠ qname "category")
         (children (with_children channel (fields_before self))).
Proof.
  intros fresh. unfold with_children. cbn [children].
  apply Forall_app. split; [done | apply fields_before_others].
Qed.

Lemma renderable_categories (self : ext) :
  renderable self = true →
  Forall (λ d, renderable_entry d = true)
         (default [] (__google_category self)).
Proof.
  unfold renderable.
  intros [[[[[[_ Hca]%andb_prop _]%andb_prop _]%andb_prop
             _]%andb_prop _]%andb_prop _]%andb_prop.
  apply Forall_forall. intros d Hd. rewrite forallb_forall in Hca.
  apply Hca. by apply list_elem_of_In.
Qed.

(** ** C8: the order of the rendered fields *)

(** C8 as stated fails: an author set to the empty string is set, yet no
    author element is rendered. *)
Lemma empty_author_not_rendered :
  ¬ (∀ (self : ext) (rss_feed root channel : elem),
       extend_rss self rss_feed = (root, Return root) →
       children root !! 0%nat = Some channel →
       __google_author self ≠ None →
       ∃ e, e ∈ children channel ∧ tag e = qname "author").
Proof.
  intros H.
  destruct (H (state_after (google_author (Some "") init))
              (Elem "rss" ∅ None [Elem "channel" ∅ None []])
              (Elem "rss" ∅ None [Elem "channel" ∅ None []])
              (Elem "channel" ∅ None []))
    as (e & He & _); [reflexivity | reflexivity | done |].
  by apply elem_of_nil in He.
Qed.

(** C8, amended. [extend_rss] takes the first child of the root as the
    channel, and raises [IndexError] when there is none.  On an instance
    whose strings are XML compatible and whose category entries are
    renderable it returns the root, having added to the channel, in this
    order, the elements of author and block, those of the categories, and
    those of image, explicit, complete, new-feed-url, owner, subtitle and
    summary.  A field gives one element when it passes its guard, none
    otherwise: a string field when it is a non-empty string, block when it
    is set, explicit when it is yes, no or clean, complete when it is yes
    or no, owner when it is set.  With no category element in the channel
    before, the categories give the category elements of C1. *)
Theorem extend_rss_field_order (self : ext) (t : string) (a : dict)
    (x : option pyval) (channel : elem) (siblings : list elem) :
  extend_rss self (Elem t a x [])
  = (Elem t a x [], Raise (IndexError "list index out of range"))
  ∧ (renderable self = true →
     let root :=
       Elem t a x
         (with_children
            (render_categories (default [] (__google_category self))
               (with_children channel (fields_before self))).1
            (fields_after self)
          :: siblings) in
     extend_rss self (Elem t a x (channel :: siblings))
     = (root, Return root))
  ∧ (renderable self = true →
     Forall (λ e, tag e ≠ qname "category") (children channel) →
     let root :=
       Elem t a x
         (with_children channel
            (fields_before self
             ++ category_elems (default [] (__google_category self))
             ++ fields_after self)
          :: siblings) in
     extend_rss self (Elem t a x (channel :: siblings))
     = (root, Return root)).
Proof.
  split_and!.
  - reflexivity.
  - intros Hself. by apply extend_rss_channel.
  - intros Hself fresh. cbv zeta. rewrite extend_rss_channel by done.
    rewrite render_categories_fresh
      by (by try apply fields_before_fresh; try apply renderable_categories).
    cbn [fst]. by rewrite !with_children_app.
Qed.

Lemma extend_rss_field_order_witness :
  extend_rss
    (run [call_summary (Some "About birds");
          call_category
            (Some (Data (One {[ "cat" := PStr "Arts"; "sub" := PStr "Design" ]})))
            (PBool false) ∅;
          call_author (Some "Ann");
          call_explicit (Some (PStr "no"));
          call_block (Some true)])
    (Elem "rss" ∅ None [Elem "channel" ∅ None [Elem "title" ∅ None []]])
  = (Elem "rss" ∅ None
       [Elem "channel" ∅ None
          [Elem "title" ∅ None [];
           leaf "author" (PStr "Ann");
           leaf "block" (PStr "yes");
           category_elem "Arts" ["Design"];
           leaf "explicit" (PStr "no");
           leaf "summary" (PStr "About birds")]],
     Return
       (Elem "rss" ∅ None
          [Elem "channel" ∅ None
             [Elem "title" ∅ None [];
              leaf "author" (PStr "Ann");
              leaf "block" (PStr "yes");
              category_elem "Arts" ["Design"];
              leaf "explicit" (PStr "no");
              leaf "summary" (PStr "About birds")]])).
Proof.
  pose proof (extend_rss_field_order
    (run [call_summary (Some "About birds");
          call_category
            (Some (Data (One {[ "cat" := PStr "Arts"; "sub" := PStr "Design" ]})))
            (PBool false) ∅;
          call_author (Some "Ann");
          call_explicit (Some (PStr "no"));
          call_block (Some true)])
    "rss" ∅ None (Elem "channel" ∅ None [Elem "title" ∅ None []]) [])
    as (_ & _ & H).
  cbv zeta in H. rewrite H.
  - vm_compute. reflexivity.
  - vm_compute. reflexivity.
  - apply Forall_singleton. done.
Defined.

(** ** C9: fields set to the empty string *)

(** C9 as stated fails for the image: the empty string ends neither in
    [.jpg] nor in [.png], so [google_image] does not store it. *)
Lemma empty_image_not_stored :
  ¬ (∀ self : ext,
       result_of (google_image None (state_after (google_image (Some "") self)))
       = Return (Some "")).
Proof. intros H. specialize (H init). vm_compute in H. discriminate H. Qed.

(** C9, amended. Author, new feed URL, subtitle and summary set to the
    empty string are stored, a later get returns [""], and [extend_rss]
    renders as if the field were not set.  The image setter does not store
    the empty string and leaves the image as it was; [extend_rss] renders
    no element for an empty image either. *)
Theorem empty_strings_not_rendered (self : ext) (rss_feed : elem) :
  (result_of (google_author None (state_after (google_author (Some "") self)))
   = Return (Some "")
   ∧ extend_rss (state_after (google_author (Some "") self)) rss_feed
     = extend_rss (set_author None self) rss_feed)
  ∧ (result_of (google_new_feed_url None
                  (state_after (google_new_feed_url (Some "") self)))
     = Return (Some "")
     ∧ extend_rss (state_after (google_new_feed_url (Some "") self)) rss_feed
       = extend_rss (set_new_feed_url None self) rss_feed)
  ∧ (result_of (google_subtitle None
                  (state_after (google_subtitle (Some "") self)))
     = Return (Some "")
     ∧ extend_rss (state_after (google_subtitle (Some "") self)) rss_feed
       = extend_rss (set_subtitle None self) rss_feed)
  ∧ (result_of (google_summary None
                  (state_after (google_summary (Some "") self)))
     = Return (Some "")
     ∧ extend_rss (state_after (google_summary (Some "") self)) rss_feed
       = extend_rss (set_summary None self) rss_feed)
  ∧ (google_image (Some "") self = (self, Return (__google_image self))
     ∧ extend_rss (set_image (Some "") self) rss_feed
       = extend_rss (set_image None self) rss_feed).
Proof.
  destruct rss_feed as [t a x [|channel siblings]]; repeat split.
Qed.
(** * Further properties of the accessors *)

(** What [google_category] does, whatever the form of the call: nothing,
    or an assignment of a list that it also returns. *)
Lemma google_category_cases v replace kwargs self :
  google_category v replace kwargs self
  = (self, Return (__google_category self))
  ∨ ∃ l, google_category v replace kwargs self
         = (set_category (Some l) self, Return (Some l)).
Proof.
  destruct v as [[s|v]|].
  - right. rewrite google_category_name, google_category_data. eauto.
  - right. rewrite google_category_data. eauto.
  - rewrite google_category_kwargs. destruct (dict_truthy kwargs).
    + right. rewrite google_category_data. eauto.
    + by left.
Qed.

Lemma perform_frame (self : ext) (c : call) (f : field) :
  f ≠ written_by c → same_field f self (perform self c).
Proof.
  intros Hf. destruct c; cbn [perform written_by] in *.
  - destruct v, f; done.
  - destruct v, f; done.
  - destruct (google_category_cases v replace kwargs self) as [-> | [l ->]];
      destruct f; done.
  - destruct v as [v|]; [| destruct f; done]. unfold google_image.
    destruct (endswith v ".jpg" || endswith v ".png"); destruct f; done.
  - destruct v as [v|]; [| destruct f; done].
    unfold google_explicit, mbind, method_bind.
    destruct (negb _); destruct f; done.
  - destruct v as [v|]; [| destruct f; done].
    unfold google_complete, mbind, method_bind.
    destruct (negb _); destruct f; done.
  - destruct v, f; done.
  - destruct name0 as [n|]; [| destruct f; done]. unfold google_owner.
    destruct (nonempty (Some n) && nonempty email0); [destruct f; done |].
    destruct (negb (nonempty (Some n)) && negb (nonempty email0));
      destruct f; done.
  - destruct v, f; done.
  - destruct v, f; done.
Qed.

Lemma same_field_trans (f : field) (a b c : ext) :
  same_field f a b → same_field f b c → same_field f a c.
Proof. destruct f; cbn; congruence. Qed.

(** X1. Calls that are all to other accessors leave a field as it was:
    an accessor assigns to no field but its own. *)
Theorem accessors_write_own_field (self : ext) (calls : list call)
    (f : field) :
  Forall (λ c, f ≠ written_by c) calls →
  same_field f self (foldl perform self calls).
Proof.
  induction calls as [|c calls IH] using rev_ind; intros Hcalls.
  - destruct f; done.
  - apply Forall_app in Hcalls as [Hcalls Hc]. apply Forall_inv in Hc.
    rewrite foldl_snoc. eapply same_field_trans; [by apply IH |].
    by apply perform_frame.
Qed.

Lemma accessors_write_own_field_witness :
  same_field f_author (set_author (Some "Bob") init)
    (foldl perform (set_author (Some "Bob") init)
       [call_owner (Some "Ann") (Some "ann@example.com");
        call_explicit (Some (PStr "maybe"));
        call_category (Some (Name "Arts")) (PStr "Design") ∅]).
Proof.
  apply (accessors_write_own_field (set_author (Some "Bob") init)
           [call_owner (Some "Ann") (Some "ann@example.com");
            call_explicit (Some (PStr "maybe"));
            call_category (Some (Name "Arts")) (PStr "Design") ∅]
           f_author).
  repeat constructor; done.
Defined.

(** X2. The pass-through setters and the image setter never raise and
    return the field as stored after the call; the explicit, complete and
    owner setters do the same or raise, and when they raise the instance is
    as before the call. *)
Theorem accessors_return_stored_or_raise (self : ext) (s : option string)
    (b : option bool) (v : option pyval) (n e : option string) :
  returns_stored __google_author (google_author s self)
  ∧ returns_stored __google_block (google_block b self)
  ∧ returns_stored __google_image (google_image s self)
  ∧ returns_stored __google_new_feed_url (google_new_feed_url s self)
  ∧ returns_stored __google_subtitle (google_subtitle s self)
  ∧ returns_stored __google_summary (google_summary s self)
  ∧ (returns_stored __google_explicit (google_explicit v self)
     ∨ raises_unchanged self (google_explicit v self))
  ∧ (returns_stored __google_complete (google_complete v self)
     ∨ raises_unchanged self (google_complete v self))
  ∧ (returns_stored __google_owner (google_owner n e self)
     ∨ raises_unchanged self (google_owner n e self)).
Proof.
  unfold returns_stored, raises_unchanged. split_and!.
  - by destruct s.
  - by destruct b.
  - destruct s as [s|]; [| done]. unfold google_image.
    by destruct (endswith s ".jpg" || endswith s ".png").
  - by destruct s.
  - by destruct s.
  - by destruct s.
  - destruct v as [v|]; [| by left].
    unfold google_explicit, mbind, method_bind.
    destruct (negb _); [right; by eexists | by left].
  - destruct v as [v|]; [| by left].
    unfold google_complete, mbind, method_bind.
    destruct (negb _); [right; by eexists | by left].
  - destruct n as [n|]; [| by left]. unfold google_owner.
    destruct (nonempty (Some n) && nonempty e); [by left |].
    destruct (negb (nonempty (Some n)) && negb (nonempty e));
      [by left | right; by eexists].
Qed.

Lemma perform_keeps_set (self : ext) (c : call) (f : field) :
  f ≠ f_owner → is_set f self = true → is_set f (perform self c) = true.
Proof.
  intros Hf Hset. destruct c; cbn [perform].
  - destruct v, f; done.
  - destruct v, f; done.
  - destruct (google_category_cases v replace kwargs self) as [-> | [l ->]];
      destruct f; done.
  - destruct v as [v|]; [| destruct f; done]. unfold google_image.
    destruct (endswith v ".jpg" || endswith v ".png"); destruct f; done.
  - destruct v as [v|]; [| destruct f; done].
    unfold google_explicit, mbind, method_bind.
    destruct (negb _); destruct f; done.
  - destruct v as [v|]; [| destruct f; done].
    unfold google_complete, mbind, method_bind.
    destruct (negb _); destruct f; done.
  - destruct v, f; done.
  - destruct name0 as [n|]; [| destruct f; done]. unfold google_owner.
    destruct (nonempty (Some n) && nonempty email0); [destruct f; done |].
    destruct (negb (nonempty (Some n)) && negb (nonempty email0));
      destruct f; done.
  - destruct v, f; done.
  - destruct v, f; done.
Qed.

(** X3. A field other than the owner, once set, is never [None] again,
    whatever accessor calls follow: no call takes a value back to unset. *)
Theorem set_fields_stay_set (history more : list call) (f : field) :
  f ≠ f_owner → is_set f (run history) = true →
  is_set f (run (history ++ more)) = true.
Proof.
  intros Hf Hset. unfold run in *. rewrite foldl_app.
  generalize dependent (foldl perform init history). clear history.
  induction more as [|c more IH]; intros self Hset; [done |].
  cbn [foldl]. apply IH. by apply perform_keeps_set.
Qed.

Lemma set_fields_stay_set_witness :
  is_set f_author
    (run ([call_author (Some "")]
          ++ [call_author None; call_owner (Some "") (Some "");
              call_category (Some (Name "Arts")) (PBool false) ∅]))
  = true.
Proof.
  apply (set_fields_stay_set [call_author (Some "")]
           [call_author None; call_owner (Some "") (Some "");
            call_category (Some (Name "Arts")) (PBool false) ∅] f_author);
    done.
Defined.

(** ** What the validated fields hold *)

Lemma explicit_check_passed (v : pyval) :
  negb (py_in v [PStr ""; PStr "yes"; PStr "no"; PStr "clean"]) = false →
  v ∈ explicit_values.
Proof.
  intros Hv%negb_false_iff. fold explicit_values in Hv.
  rewrite py_in_explicit in Hv. by apply bool_decide_eq_true in Hv.
Qed.

Lemma complete_check_passed (v : pyval) :
  negb (py_in v [PStr "yes"; PStr "no"; PStr ""; PBool true; PBool false])
  = false →
  let w := (let v := if is_True v then PStr "yes" else v in
            if is_False v then PStr "no" else v) in
  py_in w complete_values = true ∧ is_True w = false ∧ is_False w = false.
Proof.
  intros Hv%negb_false_iff. fold complete_values in Hv.
  destruct v as [s|[]|z]; cbn; try done.
Qed.

Lemma perform_validated (self : ext) (c : call) :
  validated self → validated (perform self c).
Proof.
  intros (He & Hc & Hi). destruct c; cbn [perform].
  - destruct v; done.
  - destruct v; done.
  - destruct (google_category_cases v replace kwargs self) as [-> | [l ->]];
      done.
  - destruct v as [v|]; [| done]. unfold google_image.
    destruct (endswith v ".jpg" || endswith v ".png") eqn:Hv; [| done].
    split_and!; [done | done |]. cbn. by intros s [= <-].
  - destruct v as [v|]; [| done].
    unfold google_explicit, mbind, method_bind.
    destruct (negb _) eqn:Hv; [done |]. apply explicit_check_passed in Hv.
    split_and!; [| done | done]. cbn. by intros w [= <-].
  - destruct v as [v|]; [| done].
    unfold google_complete, mbind, method_bind.
    destruct (negb _) eqn:Hv; [done |]. apply complete_check_passed in Hv.
    split_and!; [done | | done]. cbn. by intros w [= <-].
  - destruct v; done.
  - destruct name0 as [n|]; [| done]. unfold google_owner.
    destruct (nonempty (Some n) && nonempty email0); [done |].
    destruct (negb (nonempty (Some n)) && negb (nonempty email0)); done.
  - destruct v; done.
  - destruct v; done.
Qed.

Lemma run_validated (history : list call) : validated (run history).
Proof.
  unfold run. induction history as [|c history IH] using rev_ind.
  - by split_and!.
  - rewrite foldl_snoc. by apply perform_validated.
Qed.

(** X4. Whatever the calls made, the explicit field holds nothing but
    [""], ["yes"], ["no"] or ["clean"]. *)
Theorem explicit_always_listed (history : list call) (v : pyval) :
  __google_explicit (run history) = Some v →
  v = PStr "" ∨ v = PStr "yes" ∨ v = PStr "no" ∨ v = PStr "clean".
Proof.
  intros Hv. destruct (run_validated history) as (He & _ & _).
  apply He in Hv. unfold explicit_values in Hv.
  rewrite !elem_of_cons, elem_of_nil in Hv. tauto.
Qed.

Lemma explicit_always_listed_witness :
  PStr "clean" = PStr "" ∨ PStr "clean" = PStr "yes"
  ∨ PStr "clean" = PStr "no" ∨ PStr "clean" = PStr "clean".
Proof.
  apply (explicit_always_listed
           [call_explicit (Some (PStr "clean"));
            call_explicit (Some (PStr "dirty"));
            call_explicit (Some (PBool true))]
           (PStr "clean")).
  reflexivity.
Defined.

(** X5. Whatever the calls made, the complete field never holds a
    boolean: what it holds has passed the membership test, so it equals one
    of ["yes"], ["no"], [""], [True], [False], and it is neither [True] nor
    [False] itself; a string it holds is ["yes"], ["no"] or [""]. *)
Theorem complete_never_boolean (history : list call) (v : pyval) :
  __google_complete (run history) = Some v →
  (∀ b, v ≠ PBool b)
  ∧ py_in v complete_values = true
  ∧ (∀ s, v = PStr s → s = "yes" ∨ s = "no" ∨ s = "").
Proof.
  intros Hv. destruct (run_validated history) as (_ & Hc & _).
  apply Hc in Hv as (Hin & Ht & Hf). split_and!; [| done |].
  - intros [] ->; discriminate.
  - intros s ->. apply py_in_complete in Hin.
    unfold complete_values in Hin. rewrite !elem_of_cons, elem_of_nil in Hin.
    destruct Hin as [[H|[H|[H|[H|[H|[]]]]]]|[H|H]]; try discriminate;
      injection H as ->; tauto.
Qed.

Lemma complete_never_boolean_witness :
  (∀ b, PStr "yes" ≠ PBool b)
  ∧ py_in (PStr "yes") complete_values = true
  ∧ (∀ s, PStr "yes" = PStr s → s = "yes" ∨ s = "no" ∨ s = "").
Proof.
  apply (complete_never_boolean
           [call_complete (Some (PBool false));
            call_complete (Some (PBool true));
            call_complete (Some (PStr "done"))]
           (PStr "yes")).
  reflexivity.
Defined.

(** X6. Whatever the calls made, a stored image ends in [.jpg] or in
    [.png]; in particular it is not the empty string. *)
Theorem image_always_suffixed (history : list call) (s : string) :
  __google_image (run history) = Some s →
  ((∃ pre, s = pre +:+ ".jpg") ∨ (∃ pre, s = pre +:+ ".png")) ∧ s ≠ "".
Proof.
  intros Hs. destruct (run_validated history) as (_ & _ & Hi).
  apply Hi in Hs. split.
  - apply orb_true_iff in Hs as [Hs|Hs]; [left | right];
      by apply endswith_spec.
  - by intros ->.
Qed.

Lemma image_always_suffixed_witness :
  ((∃ pre, "a.png" = pre +:+ ".jpg") ∨ (∃ pre, "a.png" = pre +:+ ".png"))
  ∧ "a.png" ≠ "".
Proof.
  apply (image_always_suffixed
           [call_image (Some "a.png"); call_image (Some "b.gif");
            call_image (Some "")]
           "a.png").
  reflexivity.
Defined.

(** ** Setting a field to what it holds *)

(** X7. On an instance reached by accessor calls, handing a getter's
    result back to its setter is accepted, raises nothing and changes
    nothing: every stored value passes its own validation. *)
Theorem stored_values_accepted (history : list call) :
  let self := run history in
  google_author (__google_author self) self
  = (self, Return (__google_author self))
  ∧ google_block (__google_block self) self
    = (self, Return (__google_block self))
  ∧ google_image (__google_image self) self
    = (self, Return (__google_image self))
  ∧ google_explicit (__google_explicit self) self
    = (self, Return (__google_explicit self))
  ∧ google_complete (__google_complete self) self
    = (self, Return (__google_complete self))
  ∧ google_new_feed_url (__google_new_feed_url self) self
    = (self, Return (__google_new_feed_url self))
  ∧ google_owner (name <$> __google_owner self) (email <$> __google_owner self)
      self
    = (self, Return (__google_owner self))
  ∧ google_subtitle (__google_subtitle self) self
    = (self, Return (__google_subtitle self))
  ∧ google_summary (__google_summary self) self
    = (self, Return (__google_summary self)).
Proof.
  intros self.
  destruct (run_validated history) as (He & Hc & Hi).
  destruct (run_invariant history) as [_ Ho]. fold self in He, Hc, Hi, Ho.
  clearbody self. destruct self as [au bl ca im ex co nf ow su sm].
  unfold owner_whole in Ho.
  cbn [__google_author __google_block __google_image __google_explicit
       __google_complete __google_new_feed_url __google_owner
       __google_subtitle __google_summary] in *.
  split_and!.
  - by destruct au.
  - by destruct bl.
  - destruct im as [s|]; [| done]. unfold google_image.
    by rewrite (Hi s eq_refl).
  - destruct ex as [v|]; [| done].
    unfold google_explicit, mbind, method_bind. fold explicit_values.
    by rewrite py_in_explicit, bool_decide_eq_true_2 by auto.
  - destruct co as [v|]; [| done].
    destruct (Hc v eq_refl) as (Hin & Ht & Hf).
    unfold google_complete, mbind, method_bind. fold complete_values.
    rewrite Hin. cbn [negb]. by rewrite Ht, Hf.
  - by destruct nf.
  - destruct ow as [[n e]|]; [| done]. destruct Ho as [Hn Hm].
    cbn [fmap option_fmap option_map name email].
    unfold google_owner.
    by rewrite !nonempty_Some, !bool_decide_eq_true_2 by done.
  - by destruct su.
  - by destruct sm.
Qed.

(** ** Appending and replacing categories *)

(** X8. A call with category data and a false [replace] keeps the entries
    stored before, in their order, in front of the list; with a true
    [replace] the list stored afterwards does not depend on what was
    stored before. *)
Theorem categories_kept_or_replaced (self : ext) (v : category_data)
    (replace : pyval) (kwargs : dict) (before : option (list dict)) :
  (truthy replace = false →
     default [] (__google_category self)
     `prefix_of`
     default []
       (__google_category
          (state_after
             (google_category (Some (Data v)) replace kwargs self))))
  ∧ (truthy replace = true →
     __google_category
       (state_after (google_category (Some (Data v)) replace kwargs self))
     = __google_category
         (state_after
            (google_category (Some (Data v)) replace kwargs
               (set_category before self)))).
Proof.
  rewrite !google_category_data. unfold appended. split; intros ->.
  - cbn. by eexists.
  - reflexivity.
Qed.

Lemma categories_kept_or_replaced_witness :
  [ ({[ "cat" := PStr "Music" ]} : dict) ]
  `prefix_of`
  default []
    (__google_category
       (state_after
          (google_category
             (Some (Data (One {[ "cat" := PStr "Arts" ]}))) (PBool false) ∅
             (set_category (Some [ {[ "cat" := PStr "Music" ]} ]) init)))).
Proof.
  apply (categories_kept_or_replaced
           (set_category (Some [ {[ "cat" := PStr "Music" ]} ]) init)
           (One {[ "cat" := PStr "Arts" ]}) (PBool false) ∅ None).
  reflexivity.
Defined.

(** X9. Keyword fields count only when no positional value is given: with
    a value they are ignored, without one a non-empty set of them is the
    call with that mapping. *)
Theorem keyword_fields_without_value (self : ext) (arg : category_arg)
    (replace : pyval) (kwargs : dict) :
  google_category (Some arg) replace kwargs self
  = google_category (Some arg) replace ∅ self
  ∧ (kwargs ≠ ∅ →
     google_category None replace kwargs self
     = google_category (Some (Data (One kwargs))) replace ∅ self).
Proof.
  split.
  - destruct arg as [s|v].
    + by rewrite !google_category_name, !google_category_data.
    + by rewrite !google_category_data.
  - intros Hk. rewrite google_category_kwargs. unfold dict_truthy.
    by rewrite bool_decide_eq_true_2.
Qed.

Lemma keyword_fields_without_value_witness :
  google_category None (PBool false) {[ "cat" := PStr "Arts" ]} init
  = google_category (Some (Data (One {[ "cat" := PStr "Arts" ]})))
      (PBool false) ∅ init.
Proof.
  assert (Hk : ({[ "cat" := PStr "Arts" ]} : dict) ≠ ∅)
    by apply insert_non_empty.
  exact (proj2 (keyword_fields_without_value init (Name "Arts") (PBool false)
                  {[ "cat" := PStr "Arts" ]}) Hk).
Defined.

(** ** Enumerated fields that are set but not shown *)

(** X10. An explicit value other than yes, no and clean, and a complete
    value other than yes and no, render as if the field were not set; so do
    the empty strings that the two setters accept and store. *)
Theorem unlisted_enum_not_rendered (self : ext) (rss_feed : elem)
    (v : pyval) :
  (py_in v [PStr "yes"; PStr "no"; PStr "clean"] = false →
     extend_rss (set_explicit (Some v) self) rss_feed
     = extend_rss (set_explicit None self) rss_feed)
  ∧ (py_in v [PStr "yes"; PStr "no"] = false →
     extend_rss (set_complete (Some v) self) rss_feed
     = extend_rss (set_complete None self) rss_feed)
  ∧ extend_rss (state_after (google_explicit (Some (PStr "")) self)) rss_feed
    = extend_rss (set_explicit None self) rss_feed
  ∧ extend_rss (state_after (google_complete (Some (PStr "")) self)) rss_feed
    = extend_rss (set_complete None self) rss_feed.
Proof.
  destruct rss_feed as [t a x [|channel siblings]]; [by split_and! |].
  unfold extend_rss. split_and!.
  - cbn [__google_explicit set_explicit]. by intros ->.
  - cbn [__google_complete set_complete]. by intros ->.
  - reflexivity.
  - reflexivity.
Qed.

Lemma unlisted_enum_not_rendered_witness :
  py_in (PInt 1) [PStr "yes"; PStr "no"] = false
  ∧ extend_rss (set_complete (Some (PInt 1)) init)
      (Elem "rss" ∅ None [Elem "channel" ∅ None []])
    = extend_rss (set_complete None init)
        (Elem "rss" ∅ None [Elem "channel" ∅ None []]).
Proof.
  split; [reflexivity |].
  exact (proj1 (proj2 (unlisted_enum_not_rendered init
                         (Elem "rss" ∅ None [Elem "channel" ∅ None []])
                         (PInt 1)))
           eq_refl).
Defined.

(** * Further properties of the rendering *)

Lemma pass_extended (tags : list string) (e : elem) :
  extended tags e (pass e).1.
Proof. apply extended_refl. Qed.

Lemma andthen_keeps_tag (a b : builder) :
  (∀ e, tag (a e).1 = tag e) → (∀ e, tag (b e).1 = tag e) →
  ∀ e, tag ((a >> b) e).1 = tag e.
Proof.
  intros Ha Hb e. unfold andthen. specialize (Ha e).
  destruct (a e) as [e' [[]|x]]; [| done]. cbn in Ha.
  by rewrite Hb.
Qed.

(** A child made by [xml_elem] and worked on by a step that leaves its tag
    extends the parent by a child of that tag. *)
Lemma new_child_extended (tags : list string) (name : string)
    (step : builder) (parent : elem) :
  name ∈ tags → (∀ e, tag (step e).1 = tag e) →
  extended tags parent
    (let '(parent', child) := xml_elem name parent in
     at_child child step parent').1.
Proof.
  intros Hname Hstep. rewrite xml_elem_then. cbn [fst].
  apply extended_with_children, Forall_singleton. by rewrite Hstep.
Qed.

(** The steps of [extend_rss] on the channel, however far they get, only
    extend it, by elements with the extension's tags. *)
Lemma extend_rss_extended (self : ext) (t : string) (a : dict)
    (x : option pyval) (channel : elem) (siblings : list elem) :
  ∃ channel',
    (extend_rss self (Elem t a x (channel :: siblings))).1
    = Elem t a x (channel' :: siblings)
    ∧ extended (qname <$> channel_locals) channel channel'.
Proof.
  unfold extend_rss. cbn [children tag attrib text].
  match goal with
  | |- context [let '(_, _) := ?chain channel in _] =>
      assert (extended (qname <$> channel_locals) channel (chain channel).1)
        as Hext; [| destruct (chain channel) as [channel' r]; by exists channel']
  end.
  repeat (apply andthen_extended; [| intros ?]); intros; clear.
  all: try apply pass_extended.
  - destruct (nonempty _); [| apply pass_extended].
    apply text_elem_extended. set_solver.
  - destruct (__google_block self); [| apply pass_extended].
    apply text_elem_extended. set_solver.
  - eapply extended_mono; [| apply render_categories_extended]. set_solver.
  - destruct (nonempty _); [| apply pass_extended].
    apply new_child_extended; [set_solver |].
    intros e0. apply set_attrib_keeps.
  - destruct (__google_explicit self) as [v|]; [| apply pass_extended].
    destruct (py_in v _); [| apply pass_extended].
    apply text_elem_extended. set_solver.
  - destruct (__google_complete self) as [v|]; [| apply pass_extended].
    destruct (py_in v _); [| apply pass_extended].
    apply text_elem_extended. set_solver.
  - destruct (nonempty _); [| apply pass_extended].
    apply text_elem_extended. set_solver.
  - destruct (__google_owner self) as [o|]; [| apply pass_extended].
    apply new_child_extended; [set_solver |].
    apply andthen_keeps_tag; intros e0; apply text_elem_keeps_tag.
  - destruct (nonempty _); [| apply pass_extended].
    apply text_elem_extended. set_solver.
  - destruct (nonempty _); [| apply pass_extended].
    apply text_elem_extended. set_solver.
Qed.

(** X11. What [extend_rss] leaves behind, whether it returned or raised,
    when no category name holds a double quote: the root's own data and the
    channel's siblings are as before, and so are the channel's own data;
    every child the channel had is still at its place with its tag,
    attributes and text, its earlier children in front, and unchanged
    altogether unless it is a googleplay category element. *)
Theorem extend_rss_keeps_tree (self : ext) (t : string) (a : dict)
    (x : option pyval) (channel : elem) (siblings : list elem) :
  plain_names self = true →
  ∃ channel',
    (extend_rss self (Elem t a x (channel :: siblings))).1
    = Elem t a x (channel' :: siblings)
    ∧ tag channel' = tag channel
    ∧ attrib channel' = attrib channel
    ∧ text channel' = text channel
    ∧ ∀ i e, children channel !! i = Some e →
        ∃ e', children channel' !! i = Some e'
              ∧ tag e' = tag e ∧ attrib e' = attrib e ∧ text e' = text e
              ∧ children e `prefix_of` children e'
              ∧ (tag e ≠ qname "category" → e' = e).
Proof.
  intros _.
  destruct (extend_rss_extended self t a x channel siblings)
    as (channel' & Hroot & old & new & -> & Hold & _).
  eexists. split_and!; [exact Hroot | done | done | done |].
  cbn [children]. intros i e Hi.
  destruct (Forall2_lookup_l _ _ _ _ _ Hold Hi) as (e' & He' & Hg).
  exists e'. split; [| exact Hg].
  by apply lookup_app_l_Some.
Qed.

(** A subcategory that is [True] makes the call raise; the title the
    channel had is untouched all the same. *)
Lemma extend_rss_keeps_tree_witness :
  ∃ channel',
    (extend_rss
       (set_category
          (Some [ {[ "cat" := PStr "Arts"; "sub" := PBool true ]} ]) init)
       (Elem "rss" ∅ None
          [Elem "channel" ∅ None [Elem "title" ∅ None []]])).1
    = Elem "rss" ∅ None [channel']
    ∧ tag channel' = "channel"
    ∧ attrib channel' = ∅
    ∧ text channel' = None
    ∧ ∀ i e, [Elem "title" ∅ None []] !! i = Some e →
        ∃ e', children channel' !! i = Some e'
              ∧ tag e' = tag e ∧ attrib e' = attrib e ∧ text e' = text e
              ∧ children e `prefix_of` children e'
              ∧ (tag e ≠ qname "category" → e' = e).
Proof.
  apply (extend_rss_keeps_tree
           (set_category
              (Some [ {[ "cat" := PStr "Arts"; "sub" := PBool true ]} ])
              init)
           "rss" ∅ None (Elem "channel" ∅ None [Elem "title" ∅ None []]) []).
  reflexivity.
Defined.

(** X12. Every child that [extend_rss] adds to the channel, whether it
    returns or raises, when no category name holds a double quote, carries
    the namespace that [extend_ns] declares under the prefix [googleplay],
    with one of the ten local names. *)
Theorem added_children_in_namespace (self : ext) (t : string) (a : dict)
    (x : option pyval) (channel : elem) (siblings : list elem) :
  plain_names self = true →
  ∃ channel',
    (extend_rss self (Elem t a x (channel :: siblings))).1
    = Elem t a x (channel' :: siblings)
    ∧ ∀ i e, (length (children channel) ≤ i)%nat →
        children channel' !! i = Some e →
        ∃ uri local,
          extend_ns !! "googleplay" = Some uri
          ∧ local ∈ channel_locals
          ∧ tag e = "{" +:+ uri +:+ "}" +:+ local.
Proof.
  intros _.
  destruct (extend_rss_extended self t a x channel siblings)
    as (channel' & Hroot & old & new & -> & Hold & Hnew).
  eexists. split; [exact Hroot |]. cbn [children]. intros i e Hi He.
  apply Forall2_length in Hold.
  rewrite lookup_app_r in He by lia.
  apply list_elem_of_lookup_2 in He.
  rewrite Forall_forall in Hnew. apply Hnew in He.
  apply list_elem_of_fmap in He as (local & -> & Hlocal).
  exists GOOGLE_NS, local. split_and!; [reflexivity | done | reflexivity].
Qed.

(** An author with a control character makes the call raise; the element
    left behind for it is in the namespace. *)
Lemma added_children_in_namespace_witness :
  ∃ channel',
    (extend_rss
       (set_author (Some (String (Ascii.ascii_of_nat 1) "")) init)
       (Elem "rss" ∅ None [Elem "channel" ∅ None []])).1
    = Elem "rss" ∅ None [channel']
    ∧ ∀ i e, (length (@nil elem) ≤ i)%nat →
        children channel' !! i = Some e →
        ∃ uri local,
          extend_ns !! "googleplay" = Some uri
          ∧ local ∈ channel_locals
          ∧ tag e = "{" +:+ uri +:+ "}" +:+ local.
Proof.
  apply (added_children_in_namespace
           (set_author (Some (String (Ascii.ascii_of_nat 1) "")) init)
           "rss" ∅ None (Elem "channel" ∅ None []) []).
  reflexivity.
Defined.

Lemma fields_after_tags (self : ext) :
  Forall (λ e, tag e ∈ qname <$> ["image"; "explicit"; "complete";
                                  "new-feed-url"; "owner"; "subtitle";
                                  "summary"])
         (fields_after self).
Proof.
  unfold fields_after, image_field, enum_field, string_field, owner_field.
  repeat (apply Forall_app; split).
  - destruct (__google_image self) as [s|]; [| done].
    case_decide; [done |]. apply Forall_singleton. set_solver.
  - destruct (__google_explicit self) as [v|]; [| done].
    destruct (py_in v _); [| done]. apply Forall_singleton. set_solver.
  - destruct (__google_complete self) as [v|]; [| done].
    destruct (py_in v _); [| done]. apply Forall_singleton. set_solver.
  - destruct (__google_new_feed_url self) as [s|]; [| done].
    case_decide; [done |]. apply Forall_singleton. set_solver.
  - destruct (__google_owner self) as [o|]; [| done].
    apply Forall_singleton. set_solver.
  - destruct (__google_subtitle self) as [s|]; [| done].
    case_decide; [done |]. apply Forall_singleton. set_solver.
  - destruct (__google_summary self) as [s|]; [| done].
    case_decide; [done |]. apply Forall_singleton. set_solver.
Qed.

(** [extend_rss] on a renderable instance, whatever the channel holds: it
    returns, the channel's children stay in place, grown at most, and after
    them come the fields before the categories, new category elements, and
    the other fields. *)
Lemma extend_rss_shape (self : ext) (t : string) (a : dict)
    (x : option pyval) (channel : elem) (siblings : list elem) :
  renderable self = true →
  ∃ old added,
    extend_rss self (Elem t a x (channel :: siblings))
    = (Elem t a x
         (Elem (tag channel) (attrib channel) (text channel)
               (old ++ fields_before self ++ added ++ fields_after self)
          :: siblings),
       Return
         (Elem t a x
            (Elem (tag channel) (attrib channel) (text channel)
                  (old ++ fields_before self ++ added ++ fields_after self)
             :: siblings)))
    ∧ Forall2 grown (children channel) old
    ∧ Forall (λ e, tag e = qname "category") added.
Proof.
  intros Hself. rewrite extend_rss_channel by done.
  destruct (render_categories_extended
              (default [] (__google_category self))
              (with_children channel (fields_before self)))
    as (old' & added & -> & Hold & Hadded).
  cbn [with_children children tag attrib text] in *.
  apply Forall2_app_inv_l in Hold as (old & kept & Hold & Hkept & ->).
  apply grown_keeps_others in Hkept as ->; [| apply fields_before_others].
  exists old, added. split_and!; [| done |].
  - unfold with_children. cbn [children tag attrib text].
    by rewrite <- !app_assoc.
  - eapply Forall_impl; [exact Hadded |]. intros e He. set_solver.
Qed.

(** X13. On an instance whose values the XML library accepts, the block
    field is rendered whenever it is set, also when it is [False]: a child
    with the tag of block is added exactly when the field is not [None],
    and it reads ["yes"] for [True] and ["no"] for [False]. *)
Theorem block_rendered_iff_set (self : ext) (t : string) (a : dict)
    (x : option pyval) (channel : elem) (siblings : list elem) :
  renderable self = true →
  ∃ channel',
    extend_rss self (Elem t a x (channel :: siblings))
    = (Elem t a x (channel' :: siblings),
       Return (Elem t a x (channel' :: siblings)))
    ∧ ((∃ i e, (length (children channel) ≤ i)%nat
               ∧ children channel' !! i = Some e
               ∧ tag e = qname "block")
       ↔ __google_block self ≠ None)
    ∧ (∀ b, __google_block self = Some b →
         leaf "block" (PStr (if b then "yes" else "no"))
         ∈ children channel').
Proof.
  intros Hself.
  destruct (extend_rss_shape self t a x channel siblings Hself)
    as (old & added & -> & Hold & Hadded).
  eexists. split; [reflexivity |]. cbn [children].
  pose proof (Forall2_length _ _ _ Hold) as Hlen.
  assert (Hblock : ∀ b, __google_block self = Some b →
            leaf "block" (PStr (if b then "yes" else "no"))
            ∈ fields_before self).
  { intros b Hb. unfold fields_before, block_field. rewrite Hb.
    apply elem_of_app. right. destruct b; by apply list_elem_of_singleton. }
  split; [split |].
  - intros (i & e & Hi & He & Htag).
    rewrite lookup_app_r in He by lia.
    apply list_elem_of_lookup_2 in He.
    rewrite !elem_of_app in He. destruct He as [He|[He|He]].
    + unfold fields_before, string_field, block_field in He.
      destruct (__google_block self); [done |].
      rewrite app_nil_r in He.
      destruct (__google_author self) as [s|]; [| by apply elem_of_nil in He].
      case_decide; [by apply elem_of_nil in He |].
      apply list_elem_of_singleton in He as ->. done.
    + rewrite Forall_forall in Hadded. rewrite (Hadded e He) in Htag. done.
    + pose proof (fields_after_tags self) as H.
      rewrite Forall_forall in H. apply H in He. rewrite Htag in He.
      set_solver.
  - intros Hset. destruct (__google_block self) as [b|] eqn:Hb; [| done].
    specialize (Hblock b eq_refl).
    apply list_elem_of_lookup_1 in Hblock as [j Hj].
    exists (length old + j)%nat, (leaf "block" (PStr (if b then "yes" else "no"))).
    split_and!; [lia | | done].
    rewrite lookup_app_r by lia.
    replace (length old + j - length old)%nat with j by lia.
    by apply lookup_app_l_Some.
  - intros b Hb. apply elem_of_app. right. apply elem_of_app. left. auto.
Qed.

Lemma block_rendered_iff_set_witness :
  ∃ channel',
    extend_rss (set_block (Some false) (set_author (Some "Ann") init))
      (Elem "rss" ∅ None [Elem "channel" ∅ None []])
    = (Elem "rss" ∅ None [channel'], Return (Elem "rss" ∅ None [channel']))
    ∧ leaf "block" (PStr "no") ∈ children channel'.
Proof.
  destruct (block_rendered_iff_set
              (set_block (Some false) (set_author (Some "Ann") init))
              "rss" ∅ None (Elem "channel" ∅ None []) [] eq_refl)
    as (channel' & Hroot & _ & Hleaf).
  exists channel'. split; [exact Hroot |]. exact (Hleaf false eq_refl).
Defined.

(** X14. On an instance whose values the XML library accepts,
    [extend_rss] raises exactly when the feed root has no child, and then
    it is the [IndexError] of [rss_feed[0]], with the tree untouched. *)
Theorem extend_rss_raises_iff_no_child (self : ext) (rss_feed : elem) :
  renderable self = true →
  ((∃ e, (extend_rss self rss_feed).2 = Raise e) ↔ children rss_feed = [])
  ∧ (children rss_feed = [] →
     extend_rss self rss_feed
     = (rss_feed, Raise (IndexError "list index out of range"))).
Proof.
  intros Hself. destruct rss_feed as [t a x [|channel siblings]].
  - split; [split |]; try done. intros _. by eexists.
  - rewrite extend_rss_channel by done. split; [split |]; try done.
    by intros [e He].
Qed.

Lemma extend_rss_raises_iff_no_child_witness :
  extend_rss (set_author (Some "Ann") init) (Elem "rss" ∅ None [])
  = (Elem "rss" ∅ None [], Raise (IndexError "list index out of range")).
Proof.
  exact (proj2 (extend_rss_raises_iff_no_child
                  (set_author (Some "Ann") init) (Elem "rss" ∅ None [])
                  eq_refl)
           eq_refl).
Defined.

(** X15. A fresh instance, with no field set, renders nothing: the feed
    root comes back as it went in. *)
Theorem fresh_instance_renders_nothing (rss_feed : elem) :
  children rss_feed ≠ [] →
  extend_rss init rss_feed = (rss_feed, Return rss_feed).
Proof.
  destruct rss_feed as [t a x [|channel siblings]]; [done |]. intros _.
  rewrite extend_rss_channel by done. cbn [init __google_category default].
  cbn [render_categories pass fst].
  unfold fields_before, fields_after. cbn.
  by rewrite !with_children_nil.
Qed.

Lemma fresh_instance_renders_nothing_witness :
  extend_rss init
    (Elem "rss" ∅ None [Elem "channel" ∅ None [Elem "title" ∅ None []]])
  = (Elem "rss" ∅ None [Elem "channel" ∅ None [Elem "title" ∅ None []]],
     Return
       (Elem "rss" ∅ None [Elem "channel" ∅ None [Elem "title" ∅ None []]])).
Proof.
  apply (fresh_instance_renders_nothing
           (Elem "rss" ∅ None
              [Elem "channel" ∅ None [Elem "title" ∅ None []]])).
  done.
Defined.

(** ** Rendering the categories a second time *)

Lemma first_seen_again (l k : list string) :
  k ⊆ l → first_seen (l ++ k) = first_seen l.
Proof.
  induction k as [|y k IH] using rev_ind; intros Hk.
  - by rewrite app_nil_r.
  - rewrite app_assoc, first_seen_snoc.
    rewrite IH by (intros z Hz; apply Hk, elem_of_app; by left).
    rewrite decide_True; [done |].
    apply first_seen_elem_of, Hk, elem_of_app. right.
    by apply list_elem_of_singleton.
Qed.

(** X16. Running the loop twice over the same renderable entries, on a
    channel that had no category element, adds no second element for a
    category name: each name keeps its one element, and that element lists
    the subcategories twice. *)
Theorem categories_rendered_twice (channel : elem) (cats : list dict) :
  Forall (λ e, tag e ≠ qname "category") (children channel) →
  Forall (λ d, renderable_entry d = true) cats →
  render_categories cats (render_categories cats channel).1
  = (with_children channel
       ((λ c, category_elem c (subs_of c cats ++ subs_of c cats))
        <$> cat_names cats),
     Return tt).
Proof.
  intros fresh typed.
  rewrite (render_categories_fresh channel cats fresh typed). cbn [fst].
  rewrite (render_categories_more channel fresh cats cats typed).
  do 2 f_equal. unfold category_elems, cat_names.
  rewrite omap_app, first_seen_again by done.
  apply list_fmap_ext. intros _ c _. unfold subs_of. by rewrite omap_app.
Qed.

Lemma categories_rendered_twice_witness :
  render_categories
    [ {[ "cat" := PStr "Arts"; "sub" := PStr "Design" ]};
      {[ "cat" := PStr "Music" ]} ]
    (render_categories
       [ {[ "cat" := PStr "Arts"; "sub" := PStr "Design" ]};
         {[ "cat" := PStr "Music" ]} ]
       (Elem "channel" ∅ None [])).1
  = (Elem "channel" ∅ None
       [category_elem "Arts" ["Design"; "Design"]; category_elem "Music" []],
     Return tt).
Proof.
  assert (fresh : Forall (λ e, tag e ≠ qname "category")
                    (children (Elem "channel" ∅ None [])))
    by apply Forall_nil_2.
  assert (typed : Forall (λ d : dict, renderable_entry d = true)
                    [ {[ "cat" := PStr "Arts"; "sub" := PStr "Design" ]};
                      {[ "cat" := PStr "Music" ]} ])
    by (repeat constructor).
  rewrite (categories_rendered_twice _ _ fresh typed).
  vm_compute. reflexivity.
Defined.

(** ** Stored values that are shown *)

(** X17. On an instance reached by accessor calls whose values the XML
    library accepts, a stored owner is rendered as an owner element holding
    a name child and then an email child, both with non-empty text; a
    stored image is rendered as an image element whose [href] is the stored
    string. *)
Theorem owner_and_image_rendered (history : list call) (t : string)
    (a : dict) (x : option pyval) (channel : elem) (siblings : list elem) :
  renderable (run history) = true →
  ∃ channel',
    extend_rss (run history) (Elem t a x (channel :: siblings))
    = (Elem t a x (channel' :: siblings),
       Return (Elem t a x (channel' :: siblings)))
    ∧ (∀ o, __google_owner (run history) = Some o →
         name o ≠ "" ∧ email o ≠ ""
         ∧ Elem (qname "owner") ∅ None
             [Elem (qname "name") ∅ (Some (PStr (name o))) [];
              Elem (qname "email") ∅ (Some (PStr (email o))) []]
           ∈ children channel')
    ∧ (∀ s, __google_image (run history) = Some s →
         Elem (qname "image") {[ "href" := PStr s ]} None []
         ∈ children channel').
Proof.
  intros Hself.
  destruct (extend_rss_shape (run history) t a x channel siblings Hself)
    as (old & added & -> & _ & _).
  eexists. split; [reflexivity |]. cbn [children]. split.
  - intros o Ho. destruct (run_invariant history) as [_ Hw].
    unfold owner_whole in Hw. rewrite Ho in Hw. destruct Hw as [Hn He].
    split_and!; [done | done |].
    rewrite !elem_of_app. do 3 right. unfold fields_after, owner_field.
    rewrite Ho, !elem_of_app. do 4 right. left.
    by apply list_elem_of_singleton.
  - intros s Hs. destruct (run_validated history) as (_ & _ & Hi).
    assert (s ≠ "") as Hne by (intros ->; by specialize (Hi _ Hs)).
    rewrite !elem_of_app. do 3 right. unfold fields_after, image_field.
    rewrite Hs, !elem_of_app. left. rewrite decide_False by done.
    by apply list_elem_of_singleton.
Qed.

Lemma owner_and_image_rendered_witness :
  ∃ channel',
    extend_rss
      (run [call_owner (Some "Ann") (Some "ann@example.com");
            call_image (Some "cover.png")])
      (Elem "rss" ∅ None [Elem "channel" ∅ None []])
    = (Elem "rss" ∅ None [channel'], Return (Elem "rss" ∅ None [channel']))
    ∧ Elem (qname "image") {[ "href" := PStr "cover.png" ]} None []
      ∈ children channel'.
Proof.
  destruct (owner_and_image_rendered
              [call_owner (Some "Ann") (Some "ann@example.com");
               call_image (Some "cover.png")]
              "rss" ∅ None (Elem "channel" ∅ None []) [] eq_refl)
    as (channel' & Hroot & _ & Himage).
  exists channel'. split; [exact Hroot |].
  exact (Himage "cover.png" eq_refl).
Defined.
